(** * Medical data visualiser: the two pandas pipelines of
      [medicaldattavisualiser.py], embedded column by column.

    The script holds two functions, [draw_cat_plot] and [draw_heat_map].
    Both load [medical_examination.csv] into a table, derive three columns,
    reshape or filter the table, compute a summary (group counts, or a
    correlation matrix with a mask), draw a figure and save it.

    The table is modelled the way pandas holds it: an ordered list of named
    columns, an [int64] column as a list of [Z], a [float64] column as a list
    of binary64 primitive floats. Vectorised expressions of the script are
    vectorised here ([map] and [map2] over columns); the theorems then read
    them row by row. Arithmetic on measurements is IEEE binary64, as numpy
    computes it. A [DataFrame] here is a table whose columns are all
    numeric; a table with a text column, on which the arithmetic and
    [corr] of the script raise, is not represented, and no statement below
    speaks about such a table. *)

From Stdlib Require Import ZArith List String Floats Bool Lia Permutation.
From Stdlib Require Import Sorted RelationClasses OrderedTypeEx.
Import ListNotations.

#[local] Set Warnings "-inexact-float".
#[local] Open Scope string_scope.
#[local] Open Scope list_scope.
#[local] Open Scope Z_scope.

(** ** Exceptions and the error monad *)

Inductive exn : Type :=
| FileNotFoundError (path : string)
| KeyError (labels : list string)
| ValueError (msg : string)
| LibraryError (msg : string).

Definition Exc (A : Type) : Type := (exn + A)%type.

Definition ret {A : Type} (a : A) : Exc A := inr a.

Definition raise {A : Type} (e : exn) : Exc A := inl e.

Definition bind {A B : Type} (c : Exc A) (k : A -> Exc B) : Exc B :=
  match c with
  | inl e => inl e
  | inr a => k a
  end.

Notation "x <- c ;; k" := (bind c (fun x => k))
  (at level 61, c at next level, right associativity).

(** ** Cells and columns *)

(** [int64 -> float64], rounding to nearest even as numpy's cast does. *)
Definition Z2float (z : Z) : float :=
  SF2Prim (binary_normalize prec emax z 0 false).

Inductive num : Type :=
| NInt (z : Z)
| NFlt (f : float).

Definition num_float (x : num) : float :=
  match x with
  | NInt z => Z2float z
  | NFlt f => f
  end.

Inductive Series : Type :=
| SInt (l : list Z)
| SFloat (l : list float).

Definition len (s : Series) : nat :=
  match s with
  | SInt l => List.length l
  | SFloat l => List.length l
  end.

(** [s.iloc[i]] *)
Definition iloc (s : Series) (i : nat) : option num :=
  match s with
  | SInt l => option_map NInt (nth_error l i)
  | SFloat l => option_map NFlt (nth_error l i)
  end.

(** [s.astype(float)] *)
Definition values_float (s : Series) : list float :=
  match s with
  | SInt l => map Z2float l
  | SFloat l => l
  end.

(** An element-wise binary operation on two columns of one table (same
    index, so the rows pair up by position). *)
Definition map2 {A B C : Type} (f : A -> B -> C) (a : list A) (b : list B)
  : list C :=
  map (fun p => f (fst p) (snd p)) (combine a b).

(** [s / c] for a scalar [c]: true division, always float64. *)
Definition truediv_scalar (s : Series) (c : Z) : list float :=
  map (fun x => (x / Z2float c)%float) (values_float s).

(** [x ** 2] on a float64 array, which numpy evaluates as [x * x]. *)
Definition pow2 (s : list float) : list float :=
  map (fun x => (x * x)%float) s.

(** [a / b], element-wise true division. *)
Definition truediv (a : Series) (b : list float) : list float :=
  map2 PrimFloat.div (values_float a) b.

(** [x > c] on a float64 array. *)
Definition gt_scalar (s : list float) (c : Z) : list bool :=
  map (fun x => (Z2float c <? x)%float) s.

(** [s > c] on a column: an integer comparison on int64, a float comparison
    (false on NaN) on float64. *)
Definition series_gt (s : Series) (c : Z) : list bool :=
  match s with
  | SInt l => map (fun z => c <? z) l
  | SFloat l => gt_scalar l c
  end.

Definition bool_int (b : bool) : Z := if b then 1 else 0.

(** [mask.astype(int)] *)
Definition astype_int (m : list bool) : Series := SInt (map bool_int m).

(** ** Tables *)

Definition DataFrame : Type := list (string * Series).

Fixpoint loc (df : DataFrame) (k : string) : option Series :=
  match df with
  | [] => None
  | (k', s) :: r => if String.eqb k' k then Some s else loc r k
  end.

(** [df[k]] *)
Definition getitem (df : DataFrame) (k : string) : Exc Series :=
  match loc df k with
  | Some s => ret s
  | None => raise (KeyError [k])
  end.

(** [df[k] = s]: an existing column is replaced in place, a new one is
    appended as the last column. *)
Fixpoint setitem (df : DataFrame) (k : string) (s : Series) : DataFrame :=
  match df with
  | [] => [(k, s)]
  | (k', s') :: r =>
      if String.eqb k' k then (k', s) :: r else (k', s') :: setitem r k s
  end.

(** The cell of column [k] at row [i]. *)
Definition cell (df : DataFrame) (k : string) (i : nat) : option num :=
  match loc df k with
  | Some s => iloc s i
  | None => None
  end.

(** Every column has [n] rows. *)
Definition nrows (df : DataFrame) (n : nat) : Prop :=
  Forall (fun c => len (snd c) = n) df.

(** ** Column derivation *)

(** Lines 17-27 of [draw_cat_plot]. *)
Definition derive_cat (df : DataFrame) : Exc DataFrame :=
  weight <- getitem df "weight" ;;
  height <- getitem df "height" ;;
  let bmi := truediv weight (pow2 (truediv_scalar height 100)) in
  let df := setitem df "overweight" (astype_int (gt_scalar bmi 25)) in
  cholesterol <- getitem df "cholesterol" ;;
  let df := setitem df "cholesterol" (astype_int (series_gt cholesterol 1)) in
  gluc <- getitem df "gluc" ;;
  let df := setitem df "gluc" (astype_int (series_gt gluc 1)) in
  ret df.

(** Lines 74-76 of [draw_heat_map]. *)
Definition derive_heat (df : DataFrame) : Exc DataFrame :=
  weight <- getitem df "weight" ;;
  height <- getitem df "height" ;;
  let df :=
    setitem df "overweight"
      (astype_int
         (gt_scalar (truediv weight (pow2 (truediv_scalar height 100))) 25)) in
  cholesterol <- getitem df "cholesterol" ;;
  let df := setitem df "cholesterol" (astype_int (series_gt cholesterol 1)) in
  gluc <- getitem df "gluc" ;;
  let df := setitem df "gluc" (astype_int (series_gt gluc 1)) in
  ret df.

(** The scalar comparison [x > c] behind [series_gt]. *)
Definition num_gt (x : num) (c : Z) : bool :=
  match x with
  | NInt z => c <? z
  | NFlt f => (Z2float c <? f)%float
  end.

(** ** Quantiles and the row filter of the heat map *)

Fixpoint insert_sorted (x : float) (l : list float) : list float :=
  match l with
  | [] => [x]
  | y :: r => if (x <=? y)%float then x :: l else y :: insert_sorted x r
  end.

Definition sort_floats (l : list float) : list float :=
  fold_right insert_sorted [] l.

(** [floor] of a non-negative finite float. *)
Definition float_floor (x : float) : Z :=
  match Prim2SF x with
  | S754_finite false m e => Z.shiftl (Zpos m) e
  | _ => 0
  end.

(** numpy's linear interpolation between two neighbours. *)
Definition lerp (a b t : float) : float :=
  let d := (b - a)%float in
  if (0.5 <=? t)%float then (b - d * (1 - t))%float else (a + d * t)%float.

(** [s.quantile(q)] with pandas' default linear interpolation: missing
    values are dropped, the rest is sorted, and the value at the fractional
    position [(n - 1) * q] is interpolated between its two neighbours
    (pandas hands numpy the percentile [q * 100], which numpy divides by
    100 again). An empty column gives NaN. *)
Definition quantile (s : Series) (q : float) : float :=
  let v := sort_floats (filter (fun x => negb (is_nan x)) (values_float s)) in
  match v with
  | [] => nan
  | _ :: _ =>
      let n := Z.of_nat (List.length v) in
      let pos := (Z2float (n - 1) * (q * 100 / 100))%float in
      let lo := float_floor pos in
      if n - 1 <=? lo then
        lerp (last v nan) (last v nan) (pos + 1)%float
      else
        lerp (nth (Z.to_nat lo) v nan) (nth (Z.to_nat (lo + 1)) v nan)
          (pos - Z2float lo)%float
  end.

(** [a <= b] on two columns: integer comparison when both are int64,
    float comparison after the usual upcast otherwise. *)
Definition series_le (a b : Series) : list bool :=
  match a, b with
  | SInt x, SInt y => map2 Z.leb x y
  | _, _ => map2 PrimFloat.leb (values_float a) (values_float b)
  end.

(** [s >= q] and [s <= q] for a float scalar [q]. *)
Definition ge_scalar (s : Series) (q : float) : list bool :=
  map (fun x => (q <=? x)%float) (values_float s).

Definition le_scalar (s : Series) (q : float) : list bool :=
  map (fun x => (x <=? q)%float) (values_float s).

(** [m1 & m2] *)
Definition mask_and (m1 m2 : list bool) : list bool := map2 andb m1 m2.

Fixpoint select {A : Type} (l : list A) (m : list bool) : list A :=
  match l, m with
  | x :: l', b :: m' => if b then x :: select l' m' else select l' m'
  | _, _ => []
  end.

Definition series_select (s : Series) (m : list bool) : Series :=
  match s with
  | SInt l => SInt (select l m)
  | SFloat l => SFloat (select l m)
  end.

(** [df[mask]]: the rows where the mask is true, in every column. *)
Definition boolean_index (df : DataFrame) (m : list bool) : DataFrame :=
  map (fun c => (fst c, series_select (snd c) m)) df.

(** [df[k] >= df[k].quantile(q)] and [df[k] <= df[k].quantile(q)]. *)
Definition ge_quantile (df : DataFrame) (k : string) (q : float)
  : Exc (list bool) :=
  s <- getitem df k ;;
  s' <- getitem df k ;;
  ret (ge_scalar s (quantile s' q)).

Definition le_quantile (df : DataFrame) (k : string) (q : float)
  : Exc (list bool) :=
  s <- getitem df k ;;
  s' <- getitem df k ;;
  ret (le_scalar s (quantile s' q)).

(** Lines 82-88 of [draw_heat_map]. *)
Definition heat_filter (df : DataFrame) : Exc DataFrame :=
  ap_lo <- getitem df "ap_lo" ;;
  ap_hi <- getitem df "ap_hi" ;;
  m2 <- ge_quantile df "height" 0.025 ;;
  m3 <- le_quantile df "height" 0.975 ;;
  m4 <- ge_quantile df "weight" 0.025 ;;
  m5 <- le_quantile df "weight" 0.975 ;;
  ret (boolean_index df
         (mask_and (mask_and (mask_and (mask_and (series_le ap_lo ap_hi) m2)
                                m3) m4) m5)).

(** The scalar comparison [a <= b] behind [series_le]. *)
Definition num_le (a b : num) : bool :=
  match a, b with
  | NInt x, NInt y => x <=? y
  | _, _ => (num_float a <=? num_float b)%float
  end.

(** ** Reshaping and counting for the categorical plot *)

(** The long table made by [pd.melt]: the identifier column, and one
    (variable, value) pair per cell of the melted columns. *)
Record Melted : Type := mkMelted {
  m_id : Series;
  m_variable : list string;
  m_value : Series
}.

Definition is_int (s : Series) : bool :=
  match s with
  | SInt _ => true
  | SFloat _ => false
  end.

Definition ints (s : Series) : list Z :=
  match s with
  | SInt l => l
  | SFloat _ => []
  end.

(** Columns stacked one under the other; the result is int64 when every
    part is, float64 otherwise. *)
Definition concat_series (l : list Series) : Series :=
  if forallb is_int l then SInt (flat_map ints l)
  else SFloat (flat_map values_float l).

(** The columns named [ks], for names known to be present. *)
Definition columns (df : DataFrame) (ks : list string) : list Series :=
  flat_map (fun k => match loc df k with Some s => [s] | None => [] end) ks.

(** [pd.melt(df, id_vars=[id_var], value_vars=value_vars)]. The long
    table gets a column named [value], so a table that already has a column
    of that name is refused with a [ValueError] before anything else is
    looked at. After that, the labels of [id_vars + value_vars] that are
    not columns are reported together, in that order, in one [KeyError]. *)
Definition melt (df : DataFrame) (id_var : string) (value_vars : list string)
  : Exc Melted :=
  match loc df "value" with
  | Some _ =>
      raise (ValueError
               "value_name (value) cannot match an element in the DataFrame columns.")
  | None =>
      match filter
              (fun k => match loc df k with Some _ => false | None => true end)
              (id_var :: value_vars) with
      | (_ :: _) as missing => raise (KeyError missing)
      | [] =>
          id <- getitem df id_var ;;
          ret {| m_id := concat_series (repeat id (List.length value_vars));
                 m_variable :=
                   flat_map
                     (fun k => match loc df k with
                               | Some s => repeat k (len s)
                               | None => []
                               end) value_vars;
                 m_value := concat_series (columns df value_vars) |}
      end
  end.

(** A group key (cardio, variable, value). *)
Definition key : Type := (num * string * num)%type.

Definition num_eqb (a b : num) : bool :=
  match a, b with
  | NInt x, NInt y => x =? y
  | _, _ => (num_float a =? num_float b)%float
  end.

Definition num_ltb (a b : num) : bool :=
  match a, b with
  | NInt x, NInt y => x <? y
  | _, _ => (num_float a <? num_float b)%float
  end.

Definition num_isna (a : num) : bool :=
  match a with
  | NInt _ => false
  | NFlt f => is_nan f
  end.

Definition key_eqb (a b : key) : bool :=
  let '(c1, v1, x1) := a in
  let '(c2, v2, x2) := b in
  num_eqb c1 c2 && String.eqb v1 v2 && num_eqb x1 x2.

(** Lexicographic order on keys. *)
Definition key_leb (a b : key) : bool :=
  let '(c1, v1, x1) := a in
  let '(c2, v2, x2) := b in
  if num_ltb c1 c2 then true
  else if num_eqb c1 c2 then
    if String.ltb v1 v2 then true
    else if String.eqb v1 v2 then num_ltb x1 x2 || num_eqb x1 x2
    else false
  else false.

Definition key_isna (a : key) : bool :=
  let '(c, _, x) := a in num_isna c || num_isna x.

Definition cells (s : Series) : list num :=
  match s with
  | SInt l => map NInt l
  | SFloat l => map NFlt l
  end.

(** The rows of the long table, as key triples. *)
Definition melted_keys (m : Melted) : list key :=
  combine (combine (cells (m_id m)) (m_variable m)) (cells (m_value m)).

(** The distinct keys of a list. It is applied to labelled keys, among
    which equal keys are one and the same key. *)
Fixpoint unique (l : list key) : list key :=
  match l with
  | [] => []
  | k :: r => if existsb (key_eqb k) r then unique r else k :: unique r
  end.

Fixpoint insert_key (k : key) (l : list key) : list key :=
  match l with
  | [] => [k]
  | k' :: r => if key_leb k k' then k :: l else k' :: insert_key k r
  end.

Definition sort_keys (l : list key) : list key := fold_right insert_key [] l.

Definition group_size (ks : list key) (k : key) : nat :=
  List.length (filter (key_eqb k) ks).

(** The label pandas gives to a value of a grouping column: the column is
    factorized on its own, and equal values (0.0 and -0.0, say) share the
    first one met in the column. *)
Definition first_seen (col : list num) (x : num) : num :=
  match find (fun y => num_eqb y x) col with
  | Some y => y
  | None => x
  end.

Definition label (m : Melted) (k : key) : key :=
  let '(c, v, x) := k in
  (first_seen (cells (m_id m)) c, v, first_seen (cells (m_value m)) x).

(** [groupby(['cardio', 'variable', 'value'])['value'].count()
    .reset_index(name='total')]: rows with a missing key are dropped, the
    groups are the distinct labelled keys that occur, sorted, each with the
    number of its rows as [total]. *)
Definition groupby_count (m : Melted) : list (key * Z) :=
  let ks := filter (fun k => negb (key_isna k)) (melted_keys m) in
  map (fun k => (k, Z.of_nat (group_size ks k)))
    (sort_keys (unique (map (label m) ks))).

Definition value_vars : list string :=
  ["cholesterol"; "gluc"; "smoke"; "alco"; "active"; "overweight"].

(** Lines 31-43 of [draw_cat_plot]. *)
Definition cat_counts (df : DataFrame) : Exc (list (key * Z)) :=
  df_cat <- melt df "cardio" value_vars ;;
  ret (groupby_count df_cat).

(** The variable of a group and the sum of [total] over the groups of one
    variable. *)
Definition key_variable (k : key) : string := snd (fst k).

Definition total_of (v : string) (t : list (key * Z)) : Z :=
  fold_right Z.add 0
    (map snd (filter (fun r => String.eqb (key_variable (fst r)) v) t)).

(** ** Correlation matrix and mask of the heat map *)

Definition Matrix : Type := list (list float).

(** The running sums of pandas' Pearson correlation (Welford's method). *)
Record welford : Type := mkWelford {
  nobs : Z;
  meanx : float;
  meany : float;
  ssqdm_x : float;
  ssqdm_y : float;
  covxy : float
}.

Definition welford_init : welford := mkWelford 0 0 0 0 0 0.

(** One row of the pair of columns; rows where either value is not finite
    are skipped. *)
Definition welford_step (st : welford) (v : float * float) : welford :=
  let '(vx, vy) := v in
  if is_finite vx && is_finite vy then
    let n := nobs st + 1 in
    let dx := (vx - meanx st)%float in
    let dy := (vy - meany st)%float in
    let mx := (meanx st + 1 / Z2float n * dx)%float in
    let my := (meany st + 1 / Z2float n * dy)%float in
    mkWelford n mx my
      (ssqdm_x st + (vx - mx) * dx)%float
      (ssqdm_y st + (vy - my) * dy)%float
      (covxy st + (vx - mx) * dy)%float
  else st.

Definition clip (v : float) : float :=
  if (1 <? v)%float then 1%float
  else if (v <? -1)%float then (-1)%float
  else v.

(** The coefficient read off the sums: NaN without observations or with a
    zero divisor, the clipped quotient otherwise. *)
Definition coefficient (st : welford) : float :=
  if nobs st <? 1 then nan
  else
    let divisor := sqrt (ssqdm_x st * ssqdm_y st)%float in
    if (divisor =? 0)%float then nan else clip (covxy st / divisor)%float.

Definition pearson (x y : list float) : float :=
  coefficient (fold_left welford_step (combine x y) welford_init).

(** Entry (i, j) of [df.corr()]. pandas computes the entries with
    [j <= i] and stores each one at (i, j) and at (j, i). *)
Definition corr_entry (cols : list (list float)) (i j : nat) : float :=
  pearson (nth (Nat.max i j) cols []) (nth (Nat.min i j) cols []).

(** [df.corr()]: Pearson correlation of every pair of columns. *)
Definition corr (df : DataFrame) : Matrix :=
  let cols := map (fun c => values_float (snd c)) df in
  let idx := seq 0 (List.length cols) in
  map (fun i => map (fun j => corr_entry cols i j) idx) idx.

Definition enumerate {A : Type} (l : list A) : list (nat * A) :=
  combine (seq 0 (List.length l)) l.

(** [np.triu(m)]: a copy of [m] with the entries below the diagonal set
    to zero. *)
Definition np_triu (m : Matrix) : Matrix :=
  map (fun r =>
         map (fun c => if (fst r <=? fst c)%nat then snd c else 0%float)
           (enumerate (snd r)))
    (enumerate m).

Definition entry (m : Matrix) (i j : nat) : option float :=
  match nth_error m i with
  | Some r => nth_error r j
  | None => None
  end.

(** Whether [sns.heatmap(data, mask=mask)] hides cell (i, j): seaborn
    casts the mask array to bool, so a mask entry hides its cell when it is
    not zero, and it hides every cell whose data is missing as well
    ([mask | isnull(data)]). *)
Definition masked (data mask : Matrix) (i j : nat) : bool :=
  match entry data i j, entry mask i j with
  | Some d, Some x => negb (x =? 0)%float || is_nan d
  | _, _ => false
  end.

(** Lines 74-95 of [draw_heat_map]: the derived table, the filtered
    table, the correlation matrix and the mask. *)
Definition heat_tables (df : DataFrame)
  : Exc (DataFrame * DataFrame * Matrix * Matrix) :=
  df <- derive_heat df ;;
  df_heat <- heat_filter df ;;
  let corr := corr df_heat in
  let mask := np_triu corr in
  ret (df, df_heat, corr, mask).

(** The running sums when a column is paired with itself, which is how
    [df.corr()] reaches a diagonal entry; [ssqdm_x] of these sums is the
    column's sum of squared deviations from its mean. *)
Definition column_sums (x : list float) : welford :=
  fold_left welford_step (combine x x) welford_init.

(** ** The two functions with their effects *)

(** The files the script can see: a path gives the content, if any. *)
Definition Files : Type := string -> option string.

Definition write (fs : Files) (path data : string) : Files :=
  fun p => if String.eqb p path then Some data else fs p.

(** A computation that reads or writes files and may raise. *)
Definition IO (A : Type) : Type := Files -> Exc A * Files.

Definition io_ret {A : Type} (a : A) : IO A := fun fs => (inr a, fs).

Definition io_bind {A B : Type} (c : IO A) (k : A -> IO B) : IO B :=
  fun fs =>
    match c fs with
    | (inl e, fs') => (inl e, fs')
    | (inr a, fs') => k a fs'
    end.

Definition lift {A : Type} (c : Exc A) : IO A := fun fs => (c, fs).

Notation "x <~ c ;; k" := (io_bind c (fun x => k))
  (at level 61, c at next level, right associativity).

(** The keyword arguments of [sns.catplot] and [sns.heatmap]. *)
Record catplot_args : Type := mkCatplotArgs {
  cp_x : string;
  cp_y : string;
  cp_hue : string;
  cp_col : string;
  cp_kind : string;
  cp_height : Z;
  cp_aspect : float
}.

Record heatmap_args : Type := mkHeatmapArgs {
  hm_annot : bool;
  hm_fmt : string;
  hm_linewidths : float;
  hm_cbar_shrink : float;
  hm_center : Z;
  hm_vmax : float;
  hm_square : bool;
  hm_cbar : bool
}.

Definition cat_args : catplot_args :=
  mkCatplotArgs "variable" "total" "value" "cardio" "bar" 5 1.2.

Definition heat_args : heatmap_args :=
  mkHeatmapArgs true ".1f" 0.5 0.5 0 0.32 true true.

Definition dataset : string := "medical_examination.csv".

Section Pipelines.

(** What the script takes from pandas, seaborn and matplotlib beyond the
    table operations above: parsing CSV text, drawing, and encoding a
    figure as PNG. Each may raise. *)
Variables Figure FacetGrid : Type.
Variable parse_csv : string -> Exc DataFrame.
Variable sns_catplot : catplot_args -> list (key * Z) -> Exc FacetGrid.
Variable grid_fig : FacetGrid -> Exc Figure.
Variable plt_subplots : Z * Z -> Exc Figure.
Variable sns_heatmap :
  heatmap_args -> Matrix -> Matrix -> Figure -> Exc Figure.
Variable print_png : Figure -> Exc string.

(** [pd.read_csv(path)] *)
Definition read_csv (path : string) : IO DataFrame :=
  fun fs =>
    match fs path with
    | Some text => (parse_csv text, fs)
    | None => (raise (FileNotFoundError path), fs)
    end.

(** [fig.savefig(path)] *)
Definition savefig (fig : Figure) (path : string) : IO unit :=
  fun fs =>
    match print_png fig with
    | inl e => (inl e, fs)
    | inr data => (inr tt, write fs path data)
    end.

Definition draw_cat_plot : IO Figure :=
  df <~ read_csv dataset ;;
  df <~ lift (derive_cat df) ;;
  df_cat <~ lift (cat_counts df) ;;
  fig <~ lift (sns_catplot cat_args df_cat) ;;
  fig <~ lift (grid_fig fig) ;;
  _ <~ savefig fig "catplot.png" ;;
  io_ret fig.

Definition draw_heat_map : IO Figure :=
  df <~ read_csv dataset ;;
  df <~ lift (derive_heat df) ;;
  df_heat <~ lift (heat_filter df) ;;
  let corr := corr df_heat in
  let mask := np_triu corr in
  fig <~ lift (plt_subplots (10, 8)) ;;
  fig <~ lift (sns_heatmap heat_args corr mask fig) ;;
  _ <~ savefig fig "heatmap.png" ;;
  io_ret fig.

(** A failure of [draw_cat_plot] before the figure is saved: while
    loading, deriving columns, melting and counting, or drawing. *)
Inductive cat_fails (fs : Files) (e : exn) : Prop :=
| cat_fails_load :
    fst (read_csv dataset fs) = inl e -> cat_fails fs e
| cat_fails_derive df :
    fst (read_csv dataset fs) = inr df ->
    derive_cat df = inl e -> cat_fails fs e
| cat_fails_count df df1 :
    fst (read_csv dataset fs) = inr df ->
    derive_cat df = inr df1 ->
    cat_counts df1 = inl e -> cat_fails fs e
| cat_fails_plot df df1 t :
    fst (read_csv dataset fs) = inr df ->
    derive_cat df = inr df1 ->
    cat_counts df1 = inr t ->
    (g <- sns_catplot cat_args t ;; grid_fig g) = inl e -> cat_fails fs e.

(** A failure of [draw_heat_map] before the figure is saved: while
    loading, deriving columns, filtering rows, or drawing. *)
Inductive heat_fails (fs : Files) (e : exn) : Prop :=
| heat_fails_load :
    fst (read_csv dataset fs) = inl e -> heat_fails fs e
| heat_fails_derive df :
    fst (read_csv dataset fs) = inr df ->
    derive_heat df = inl e -> heat_fails fs e
| heat_fails_filter df df1 :
    fst (read_csv dataset fs) = inr df ->
    derive_heat df = inr df1 ->
    heat_filter df1 = inl e -> heat_fails fs e
| heat_fails_plot df df1 df2 :
    fst (read_csv dataset fs) = inr df ->
    derive_heat df = inr df1 ->
    heat_filter df1 = inr df2 ->
    (fig <- plt_subplots (10, 8) ;;
     sns_heatmap heat_args (corr df2) (np_triu (corr df2)) fig) = inl e ->
    heat_fails fs e.

End Pipelines.

(** ** Sample tables *)

(** Four examinations with the columns of the dataset. *)
Definition sample : DataFrame :=
  [("id", SInt [0; 1; 2; 3]);
   ("age", SInt [18393; 20228; 18857; 17623]);
   ("sex", SInt [2; 1; 1; 2]);
   ("height", SInt [168; 156; 140; 169]);
   ("weight", SFloat [62; 85; 49; 82]%float);
   ("ap_hi", SInt [110; 140; 130; 150]);
   ("ap_lo", SInt [80; 90; 70; 100]);
   ("cholesterol", SInt [1; 3; 3; 1]);
   ("gluc", SInt [1; 1; 2; 1]);
   ("smoke", SInt [0; 0; 1; 1]);
   ("alco", SInt [0; 1; 0; 1]);
   ("active", SInt [1; 1; 0; 1]);
   ("cardio", SInt [0; 1; 1; 1])].

(** [sample] after the column derivation. *)
Definition sample_derived : DataFrame :=
  [("id", SInt [0; 1; 2; 3]);
   ("age", SInt [18393; 20228; 18857; 17623]);
   ("sex", SInt [2; 1; 1; 2]);
   ("height", SInt [168; 156; 140; 169]);
   ("weight", SFloat [62; 85; 49; 82]%float);
   ("ap_hi", SInt [110; 140; 130; 150]);
   ("ap_lo", SInt [80; 90; 70; 100]);
   ("cholesterol", SInt [0; 1; 1; 0]);
   ("gluc", SInt [0; 0; 1; 0]);
   ("smoke", SInt [0; 0; 1; 1]);
   ("alco", SInt [0; 1; 0; 1]);
   ("active", SInt [1; 1; 0; 1]);
   ("cardio", SInt [0; 1; 1; 1]);
   ("overweight", SInt [0; 1; 1; 1])].

(** Four examinations whose heights and weights come in pairs, so that
    the percentile bounds are the extreme values and the row filter keeps
    every row. *)
Definition paired : DataFrame :=
  [("id", SInt [0; 1; 2; 3]);
   ("age", SInt [18393; 20228; 18857; 17623]);
   ("sex", SInt [2; 1; 1; 2]);
   ("height", SInt [160; 160; 170; 170]);
   ("weight", SFloat [60; 80; 60; 80]%float);
   ("ap_hi", SInt [110; 140; 130; 150]);
   ("ap_lo", SInt [80; 90; 70; 100]);
   ("cholesterol", SInt [1; 3; 3; 1]);
   ("gluc", SInt [1; 1; 2; 1]);
   ("smoke", SInt [0; 0; 1; 1]);
   ("alco", SInt [0; 1; 0; 1]);
   ("active", SInt [1; 1; 0; 1]);
   ("cardio", SInt [0; 1; 1; 1])].

(** ** Positions kept by a boolean mask *)

(** The position in the unfiltered table of the [k]-th row kept by the
    mask [m]. *)
Fixpoint kth_true (m : list bool) (k : nat) : option nat :=
  match m with
  | [] => None
  | true :: m' =>
      match k with
      | O => Some O
      | S k' => option_map S (kth_true m' k')
      end
  | false :: m' => option_map S (kth_true m' k)
  end.

(** ** The schema of the dataset *)

(** The categorical fields are integer codes: [cardio] and the three raw
    flags that enter the plot unchanged are int64 columns. *)
Definition int_column (df : DataFrame) (k : string) : bool :=
  match loc df k with
  | Some (SInt _) => true
  | _ => false
  end.

Definition int_coded (df : DataFrame) : bool :=
  forallb (int_column df) ["cardio"; "smoke"; "alco"; "active"].

(** The rows of [sample] that the heat-map filter keeps. *)
Definition sample_kept : DataFrame :=
  [("id", SInt [0]);
   ("age", SInt [18393]);
   ("sex", SInt [2]);
   ("height", SInt [168]);
   ("weight", SFloat [62%float]);
   ("ap_hi", SInt [110]);
   ("ap_lo", SInt [80]);
   ("cholesterol", SInt [0]);
   ("gluc", SInt [0]);
   ("smoke", SInt [0]);
   ("alco", SInt [0]);
   ("active", SInt [1]);
   ("cardio", SInt [0]);
   ("overweight", SInt [0])].

(** ** Groups of integer-coded tables *)

(** A key made of two integer cells. *)
Definition int_key (k : key) : Prop :=
  exists c v x, k = (NInt c, v, NInt x).

(** The keys that one melted column contributes: one per row, pairing the
    identifier with the value under the column's name. *)
Definition block (id : list Z) (v : string) (l : list Z) : list key :=
  combine (combine (map NInt id) (repeat v (List.length l))) (map NInt l).

(** The sum of the sizes in [ks] of the groups listed in [u] that satisfy
    [P], and the number of those groups that equal [k]. *)
Definition sum_sizes (P : key -> bool) (ks u : list key) : Z :=
  fold_right Z.add 0 (map (fun k => Z.of_nat (group_size ks k)) (filter P u)).

Definition occurrences (P : key -> bool) (k : key) (u : list key) : Z :=
  Z.of_nat (List.length (filter (fun k' => P k' && key_eqb k' k) u)).

Definition has_variable (v : string) (k : key) : bool :=
  String.eqb (key_variable k) v.

(** Column [k] of [df] is an int64 column of [n] rows. *)
Definition int_col (df : DataFrame) (n : nat) (k : string) : Prop :=
  exists l, loc df k = Some (SInt l) /\ List.length l = n.

(** The counted table of [sample]. *)
Definition sample_counts : list (key * Z) :=
  [(NInt 0, "active", NInt 1, 1); (NInt 0, "alco", NInt 0, 1);
   (NInt 0, "cholesterol", NInt 0, 1); (NInt 0, "gluc", NInt 0, 1);
   (NInt 0, "overweight", NInt 0, 1); (NInt 0, "smoke", NInt 0, 1);
   (NInt 1, "active", NInt 0, 1); (NInt 1, "active", NInt 1, 2);
   (NInt 1, "alco", NInt 0, 1); (NInt 1, "alco", NInt 1, 2);
   (NInt 1, "cholesterol", NInt 0, 1); (NInt 1, "cholesterol", NInt 1, 2);
   (NInt 1, "gluc", NInt 0, 2); (NInt 1, "gluc", NInt 1, 1);
   (NInt 1, "overweight", NInt 1, 3); (NInt 1, "smoke", NInt 0, 1);
   (NInt 1, "smoke", NInt 1, 2)].

(** ** Sample runs *)

(** A disk that holds the dataset. *)
Definition disk : Files := write (fun _ => None) dataset "csv".

(** A parser that finds the rows of [sample], and one that finds a table
    without measurements. *)
Definition parse_sample (text : string) : Exc DataFrame := inr sample.

Definition parse_ids (text : string) : Exc DataFrame :=
  inr [("id", SInt [0; 1; 2; 3])].

(** Stand-ins for drawing: a figure is the text of its image. *)
Definition draw_bars (a : catplot_args) (t : list (key * Z)) : Exc string :=
  inr (cp_kind a).

Definition draw_axes (size : Z * Z) : Exc string := inr "axes".

Definition draw_heat (a : heatmap_args) (c mask : Matrix) (fig : string)
  : Exc string :=
  inr (hm_fmt a).

(** ** Missing columns *)

(** The first of the labels [ks] that is not a column of [df]. *)
Fixpoint first_missing (df : DataFrame) (ks : list string) : option string :=
  match ks with
  | [] => None
  | k :: r =>
      match loc df k with
      | Some _ => first_missing df r
      | None => Some k
      end
  end.

Definition absent (df : DataFrame) (k : string) : bool :=
  match loc df k with
  | Some _ => false
  | None => true
  end.

(** ** The mask of the row filter *)

(** The boolean expression inside [df[...]] on lines 83-87 of
    [draw_heat_map]. *)
Definition heat_mask (df : DataFrame) : Exc (list bool) :=
  ap_lo <- getitem df "ap_lo" ;;
  ap_hi <- getitem df "ap_hi" ;;
  m2 <- ge_quantile df "height" 0.025 ;;
  m3 <- le_quantile df "height" 0.975 ;;
  m4 <- ge_quantile df "weight" 0.025 ;;
  m5 <- le_quantile df "weight" 0.975 ;;
  ret (mask_and (mask_and (mask_and (mask_and (series_le ap_lo ap_hi) m2)
                             m3) m4) m5).

(** The number of rows a mask keeps, and the number it keeps before
    row [i]. *)
Definition count_true (m : list bool) : nat :=
  List.length (filter (fun b : bool => b) m).

Definition rank (m : list bool) (i : nat) : nat := count_true (firstn i m).

(** ** The order of the groups *)

(** Strict lexicographic order on integer keys: by cardio, then by the
    name of the variable, then by value. *)
Definition key_lt (a b : key) : Prop :=
  match a, b with
  | (NInt c1, v1, NInt x1), (NInt c2, v2, NInt x2) =>
      c1 < c2 \/
      (c1 = c2 /\ (String.ltb v1 v2 = true \/ (v1 = v2 /\ x1 < x2)))
  | _, _ => False
  end.

(** The number of source rows whose cardio is [c] and whose value is [x],
    for the cardio column [ids] and a melted column [vals]. *)
Definition count_rows (ids vals : list Z) (c x : Z) : nat :=
  List.length
    (filter (fun p => (c =? fst p) && (x =? snd p)) (combine ids vals)).

(** What a run does to a disk, given what the run yields: nothing when it
    raises, one image written at [path] when it returns. *)
Definition run_on {Figure : Type} (path : string) (o : Exc (Figure * string))
  (fs : Files) : Exc Figure * Files :=
  match o with
  | inl e => (inl e, fs)
  | inr (fig, data) => (inr fig, write fs path data)
  end.

(** ** Cells of one dtype, and rows without missing values *)

(** The dtype of a cell: [true] for int64, [false] for float64. *)
Definition kind (a : num) : bool :=
  match a with
  | NInt _ => true
  | NFlt _ => false
  end.

(** A key that is counted in a long table whose cardio column has dtype
    [bc] and whose value column has dtype [bx]: its two cells have these
    dtypes and neither is missing. *)
Definition good_key (bc bx : bool) (k : key) : Prop :=
  kind (fst (fst k)) = bc /\ kind (snd k) = bx /\ key_isna k = false.

(** The cells of a melted column as they stand in the value column of the
    long table: as they are when every melted column is int64 ([b] true),
    cast to float64 otherwise. *)
Definition upcast (b : bool) (s : Series) : list num :=
  if b then map NInt (ints s) else map NFlt (values_float s).

(** The keys that one melted column contributes, for cells of any dtype. *)
Definition gblock (id : list num) (v : string) (l : list num) : list key :=
  combine (combine id (repeat v (List.length l))) l.

Definition both_present (p : num * num) : bool :=
  negb (num_isna (fst p)) && negb (num_isna (snd p)).

(** The number of rows of [df] that hold a value, not NaN, both in
    [cardio] and in column [v]. *)
Definition complete_rows (df : DataFrame) (v : string) : nat :=
  match loc df "cardio", loc df v with
  | Some a, Some b =>
      List.length (filter both_present (combine (cells a) (cells b)))
  | _, _ => 0%nat
  end.

(** Column [k] of [df] holds no NaN. *)
Definition no_missing (df : DataFrame) (k : string) : bool :=
  match loc df k with
  | Some s => forallb (fun x => negb (num_isna x)) (cells s)
  | None => false
  end.

(** A binary64 value up to the sign of zero, which [==] does not see. *)
Definition sf_class (x : spec_float) : spec_float :=
  match x with
  | S754_zero _ => S754_zero false
  | _ => x
  end.

(** ** More sample tables *)

(** [sample] with the smoking flag of the second examination missing, so
    that pandas reads the column as float64. *)
Definition sample_missing : DataFrame :=
  [("id", SInt [0; 1; 2; 3]);
   ("age", SInt [18393; 20228; 18857; 17623]);
   ("sex", SInt [2; 1; 1; 2]);
   ("height", SInt [168; 156; 140; 169]);
   ("weight", SFloat [62; 85; 49; 82]%float);
   ("ap_hi", SInt [110; 140; 130; 150]);
   ("ap_lo", SInt [80; 90; 70; 100]);
   ("cholesterol", SInt [1; 3; 3; 1]);
   ("gluc", SInt [1; 1; 2; 1]);
   ("smoke", SFloat [0; nan; 1; 1]%float);
   ("alco", SInt [0; 1; 0; 1]);
   ("active", SInt [1; 1; 0; 1]);
   ("cardio", SInt [0; 1; 1; 1])].

(** [sample] with the two pressures exchanged: every diastolic pressure
    exceeds the systolic one, so the row filter keeps no row. *)
Definition inverted : DataFrame :=
  [("id", SInt [0; 1; 2; 3]);
   ("age", SInt [18393; 20228; 18857; 17623]);
   ("sex", SInt [2; 1; 1; 2]);
   ("height", SInt [168; 156; 140; 169]);
   ("weight", SFloat [62; 85; 49; 82]%float);
   ("ap_hi", SInt [80; 90; 70; 100]);
   ("ap_lo", SInt [110; 140; 130; 150]);
   ("cholesterol", SInt [1; 3; 3; 1]);
   ("gluc", SInt [1; 1; 2; 1]);
   ("smoke", SInt [0; 0; 1; 1]);
   ("alco", SInt [0; 1; 0; 1]);
   ("active", SInt [1; 1; 0; 1]);
   ("cardio", SInt [0; 1; 1; 1])].

(** The fourteen columns of a derived table, without rows. *)
Definition no_rows : DataFrame :=
  [("id", SInt []); ("age", SInt []); ("sex", SInt []); ("height", SInt []);
   ("weight", SFloat []); ("ap_hi", SInt []); ("ap_lo", SInt []);
   ("cholesterol", SInt []); ("gluc", SInt []); ("smoke", SInt []);
   ("alco", SInt []); ("active", SInt []); ("cardio", SInt []);
   ("overweight", SInt [])].

Definition parse_inverted (text : string) : Exc DataFrame := inr inverted.

(** [paired] after the column derivation; the row filter keeps all of it. *)
Definition paired_derived : DataFrame :=
  [("id", SInt [0; 1; 2; 3]);
   ("age", SInt [18393; 20228; 18857; 17623]);
   ("sex", SInt [2; 1; 1; 2]);
   ("height", SInt [160; 160; 170; 170]);
   ("weight", SFloat [60; 80; 60; 80]%float);
   ("ap_hi", SInt [110; 140; 130; 150]);
   ("ap_lo", SInt [80; 90; 70; 100]);
   ("cholesterol", SInt [0; 1; 1; 0]);
   ("gluc", SInt [0; 0; 1; 0]);
   ("smoke", SInt [0; 0; 1; 1]);
   ("alco", SInt [0; 1; 0; 1]);
   ("active", SInt [1; 1; 0; 1]);
   ("cardio", SInt [0; 1; 1; 1]);
   ("overweight", SInt [0; 1; 0; 1])].

(** Two examinations alike in height and weight, with one column whose
    values lie so far apart that the square of its sum of squared
    deviations exceeds the binary64 range. *)
Definition far_apart : DataFrame :=
  [("age", SFloat [0; 1e80]%float);
   ("height", SInt [170; 170]);
   ("weight", SFloat [70; 70]%float);
   ("ap_hi", SInt [120; 120]);
   ("ap_lo", SInt [80; 80]);
   ("cholesterol", SInt [1; 1]);
   ("gluc", SInt [1; 1])].

(** * Properties *)

(** *** Binary64 facts *)

Lemma SFcompare_refl x : x <> S754_nan -> SFcompare x x = Some Eq.
Proof.
  destruct x as [s|s| |s m e]; simpl; intros H; try congruence.
  - destruct s; reflexivity.
  - rewrite Z.compare_refl, Pos.compare_cont_refl. destruct s; reflexivity.
Qed.

Lemma is_nan_spec f : is_nan f = true -> Prim2SF f = S754_nan.
Proof.
  unfold is_nan. rewrite FloatAxioms.eqb_spec. unfold SFeqb. intros H.
  destruct (Prim2SF f) eqn:E; try reflexivity;
    rewrite SFcompare_refl in H by discriminate; discriminate.
Qed.

Lemma eqb_zero_spec f :
  (f =? 0)%float = true -> exists s, Prim2SF f = S754_zero s.
Proof.
  rewrite FloatAxioms.eqb_spec.
  change (Prim2SF 0) with (S754_zero false). unfold SFeqb.
  destruct (Prim2SF f) as [s|s| |s m e]; simpl; try discriminate; eauto;
    destruct s; discriminate.
Qed.

Ltac float_consts :=
  repeat match goal with
    | |- context [Prim2SF ?c] =>
        lazymatch c with
        | 25%float => idtac | 100%float => idtac
        | 0%float => idtac | 1%float => idtac
        end;
        let v := eval vm_compute in (Prim2SF c) in
        change (Prim2SF c) with v
    end.

(** [==] on binary64 is equality up to the sign of zero, on values that
    are not NaN. *)
Lemma sf_class_nan a : sf_class a = S754_nan -> a = S754_nan.
Proof. destruct a; simpl; congruence. Qed.

Lemma SFeqb_class a b :
  SFeqb a b = true <-> a <> S754_nan /\ sf_class a = sf_class b.
Proof.
  unfold SFeqb.
  destruct a as [[]|[]| |[] ma ea], b as [[]|[]| |[] mb eb]; simpl;
    try (split; [intros _; split; [discriminate|reflexivity]|reflexivity]);
    try (split; [discriminate|intros [H1 H2]; congruence]).
  - change (Pos.compare_cont Eq ma mb) with (Pos.compare ma mb). split.
    + intros H. split; [discriminate|].
      destruct (Z.compare_spec ea eb); try discriminate.
      destruct (Pos.compare_spec ma mb); try discriminate. congruence.
    + intros [_ [= -> ->]].
      rewrite Z.compare_refl, Pos.compare_refl. reflexivity.
  - change (Pos.compare_cont Eq ma mb) with (Pos.compare ma mb). split.
    + intros H. split; [discriminate|].
      destruct (Z.compare_spec ea eb); try discriminate.
      destruct (Pos.compare_spec ma mb); try discriminate. congruence.
    + intros [_ [= -> ->]].
      rewrite Z.compare_refl, Pos.compare_refl. reflexivity.
Qed.

Lemma feqb_sym x y : (x =? y)%float = (y =? x)%float.
Proof.
  rewrite !FloatAxioms.eqb_spec. apply eq_true_iff_eq.
  rewrite !SFeqb_class.
  assert (S : forall a b,
             a <> S754_nan /\ sf_class a = sf_class b ->
             b <> S754_nan /\ sf_class b = sf_class a).
  { intros a b [H1 H2]. split; [|symmetry; exact H2].
    intros E. rewrite E in H2. apply sf_class_nan in H2. contradiction. }
  split; apply S.
Qed.

Lemma feqb_trans x y z :
  (x =? y)%float = true -> (y =? z)%float = true -> (x =? z)%float = true.
Proof.
  rewrite !FloatAxioms.eqb_spec, !SFeqb_class.
  intros [H1 H2] [_ H3]. split; congruence.
Qed.

Lemma feqb_notnan x y : (x =? y)%float = true -> is_nan x = false.
Proof.
  rewrite FloatAxioms.eqb_spec, SFeqb_class. intros [H _].
  destruct (is_nan x) eqn:E; [|reflexivity].
  apply is_nan_spec in E. contradiction.
Qed.

(** A quotient of a finite non-zero value by itself is exactly 1. *)
Lemma div_eucl_div_mod a b : Z.div_eucl a b = (a / b, a mod b).
Proof.
  unfold Z.div, Z.modulo. destruct (Z.div_eucl a b). reflexivity.
Qed.

Lemma SFdiv_core_self m e :
  SFdiv_core_binary prec emax (Zpos m) e (Zpos m) e =
    (2 ^ 53, -53, loc_Exact).
Proof.
  unfold SFdiv_core_binary. cbv zeta.
  rewrite !Z.sub_diag.
  replace (Z.min (fexp prec emax 0) 0) with (-53) by reflexivity.
  change (0 - -53) with 53. cbv iota beta.
  rewrite Z.shiftl_mul_pow2 by lia.
  rewrite div_eucl_div_mod, Z.mul_comm, Z.div_mul, Z.mod_mul by lia.
  unfold new_location, new_location_even, new_location_odd.
  destruct (Z.even (Zpos m)); reflexivity.
Qed.

Lemma is_finite_spec x :
  is_finite x = true ->
  match Prim2SF x with
  | S754_zero _ | S754_finite _ _ _ => True
  | _ => False
  end.
Proof.
  unfold is_finite, is_nan, is_infinity.
  rewrite !FloatAxioms.eqb_spec, FloatAxioms.abs_spec.
  change (Prim2SF infinity) with (S754_infinity false).
  destruct (Prim2SF x) as [s|s| |s m e]; simpl; auto; try discriminate.
  unfold SFeqb. rewrite SFcompare_refl by discriminate. discriminate.
Qed.

Lemma div_self x :
  is_finite x = true -> (x =? 0)%float = false -> (x / x)%float = 1%float.
Proof.
  intros Hf Hz. apply is_finite_spec in Hf.
  rewrite FloatAxioms.eqb_spec in Hz.
  change (Prim2SF 0) with (S754_zero false) in Hz.
  apply Prim2SF_inj. rewrite FloatAxioms.div_spec.
  destruct (Prim2SF x) as [s|s| |s m e]; try contradiction.
  - destruct s; discriminate.
  - unfold SF64div, SFdiv. rewrite SFdiv_core_self, xorb_nilpotent.
    vm_compute. reflexivity.
Qed.

(** Squaring zero and taking the root gives zero. *)
Lemma sqrt_sq_zero s : (s =? 0)%float = true -> (sqrt (s * s) =? 0)%float = true.
Proof.
  intros H. apply eqb_zero_spec in H as [sg H].
  rewrite FloatAxioms.eqb_spec, FloatAxioms.sqrt_spec, FloatAxioms.mul_spec, H.
  destruct sg; reflexivity.
Qed.

(** Rounding never produces NaN, so an integer cast to binary64 is not
    missing. *)
Lemma iter_pos_inv {A : Type} (Q : A -> Prop) (f : A -> A) :
  (forall x, Q x -> Q (f x)) -> forall p x, Q x -> Q (iter_pos f p x).
Proof.
  intros Hf. induction p as [p IH|p IH|]; intros x Hx; simpl; auto.
Qed.

Lemma shr_1_nonneg mrs : 0 <= shr_m mrs -> 0 <= shr_m (shr_1 mrs).
Proof.
  destruct mrs as [m r s]. simpl. intros H.
  destruct m as [|p|p]; [simpl; lia| |lia].
  destruct p; simpl; lia.
Qed.

Lemma shr_nonneg mrs e n : 0 <= shr_m mrs -> 0 <= shr_m (fst (shr mrs e n)).
Proof.
  intros H. destruct n; simpl; try exact H.
  apply (iter_pos_inv (fun r => 0 <= shr_m r)); [apply shr_1_nonneg|exact H].
Qed.

Lemma shr_fexp_nonneg m e l :
  0 <= m -> 0 <= shr_m (fst (shr_fexp prec emax m e l)).
Proof.
  intros H. unfold shr_fexp. apply shr_nonneg.
  destruct l as [|[]]; exact H.
Qed.

Lemma round_nearest_even_nonneg m l : 0 <= m -> 0 <= round_nearest_even m l.
Proof.
  intros H. destruct l as [|[]]; simpl; try lia.
  destruct (Z.even m); lia.
Qed.

Lemma binary_round_aux_not_nan sx mx ex lx :
  0 <= mx -> binary_round_aux prec emax sx mx ex lx <> S754_nan.
Proof.
  intros H. unfold binary_round_aux.
  pose proof (shr_fexp_nonneg mx ex lx H) as H1.
  destruct (shr_fexp prec emax mx ex lx) as [mrs' e']. simpl in H1.
  pose proof (shr_fexp_nonneg _ e' loc_Exact
                (round_nearest_even_nonneg _ (loc_of_shr_record mrs') H1))
    as H2.
  destruct (shr_fexp prec emax _ e' loc_Exact) as [mrs'' e'']. simpl in H2.
  destruct (shr_m mrs'') as [|p|p]; [discriminate| |lia].
  destruct (e'' <=? emax - prec); discriminate.
Qed.

Lemma binary_round_not_nan sx mx ex :
  binary_round prec emax sx mx ex <> S754_nan.
Proof.
  unfold binary_round. destruct (shl_align mx ex _) as [mz ez].
  apply binary_round_aux_not_nan. lia.
Qed.

Lemma binary_normalize_not_nan m e s :
  binary_normalize prec emax m e s <> S754_nan.
Proof.
  destruct m; simpl; [discriminate|apply binary_round_not_nan..].
Qed.

Lemma not_nan_spec f : Prim2SF f <> S754_nan -> is_nan f = false.
Proof.
  intros H. destruct (is_nan f) eqn:E; [|reflexivity].
  apply is_nan_spec in E. contradiction.
Qed.

Lemma Z2float_not_nan z : is_nan (Z2float z) = false.
Proof.
  unfold Z2float.
  pose proof (binary_normalize_not_nan z 0 false) as H.
  destruct (binary_normalize prec emax z 0 false) as [[]|[]| |s m e];
    try reflexivity; [contradiction|].
  unfold SF2Prim, Z.ldexp.
  assert (N : forall i,
             Prim2SF (ldshiftexp (of_uint63 (Uint63.of_Z (Zpos m))) i) <>
             S754_nan).
  { intros i. rewrite ldshiftexp_spec, of_uint63_spec. unfold SFldexp.
    pose proof (binary_normalize_not_nan
                  (Uint63.to_Z (Uint63.of_Z (Zpos m))) 0 false) as Hn.
    destruct (binary_normalize prec emax _ 0 false); try discriminate;
      [contradiction|apply binary_round_not_nan]. }
  destruct s; apply not_nan_spec; [rewrite FloatAxioms.opp_spec|]; auto.
  specialize (N (Uint63.of_Z
                   (Z.max (Z.min e (emax - emin)) (emin - emax - 1) + shift))).
  destruct (Prim2SF _); simpl; congruence.
Qed.

Lemma nth_error_map2 {A B C : Type} (f : A -> B -> C) a b i x y :
  nth_error a i = Some x -> nth_error b i = Some y ->
  nth_error (map2 f a b) i = Some (f x y).
Proof.
  unfold map2. revert b i.
  induction a as [|a0 a IH]; intros [|b0 b] [|i]; simpl; try discriminate.
  - intros [= ->] [= ->]. reflexivity.
  - apply IH.
Qed.

Lemma nth_error_values_float s i x :
  iloc s i = Some x -> nth_error (values_float s) i = Some (num_float x).
Proof.
  destruct s as [l|l]; simpl.
  - rewrite nth_error_map. destruct (nth_error l i); simpl; [|discriminate].
    intros [= <-]. reflexivity.
  - destruct (nth_error l i); simpl; [|discriminate].
    intros [= <-]. reflexivity.
Qed.

Lemma iloc_series_gt s c i x :
  iloc s i = Some x ->
  iloc (astype_int (series_gt s c)) i = Some (NInt (bool_int (num_gt x c))).
Proof.
  destruct s as [l|l]; simpl; unfold gt_scalar;
    rewrite !nth_error_map; destruct (nth_error l i); simpl;
    try discriminate; intros [= <-]; reflexivity.
Qed.

Lemma loc_setitem_eq df k s : loc (setitem df k s) k = Some s.
Proof.
  induction df as [|[k' s'] r IH]; simpl.
  - rewrite String.eqb_refl. reflexivity.
  - destruct (String.eqb k' k) eqn:E; simpl; rewrite E; auto.
Qed.

Lemma loc_setitem_ne df k k' s : k <> k' -> loc (setitem df k s) k' = loc df k'.
Proof.
  intros Hne. induction df as [|[k0 s0] r IH]; simpl.
  - destruct (String.eqb_spec k k'); [contradiction|reflexivity].
  - destruct (String.eqb_spec k0 k) as [->|Hk]; simpl.
    + destruct (String.eqb_spec k k'); [contradiction|reflexivity].
    + rewrite IH. reflexivity.
Qed.

Lemma getitem_inr df k s : getitem df k = inr s -> loc df k = Some s.
Proof.
  unfold getitem. destruct (loc df k); [intros [= ->]; reflexivity|discriminate].
Qed.

Lemma cell_loc df k i x :
  cell df k i = Some x -> exists s, loc df k = Some s /\ iloc s i = Some x.
Proof.
  unfold cell. destruct (loc df k) as [s|]; [|discriminate].
  intros H. exists s. auto.
Qed.

Lemma Z2float_25 : Z2float 25 = 25%float.
Proof. vm_compute. reflexivity. Qed.

Lemma Z2float_100 : Z2float 100 = 100%float.
Proof. vm_compute. reflexivity. Qed.

Lemma nth_error_bmi sw sh c i w h :
  iloc sw i = Some w -> iloc sh i = Some h ->
  nth_error (truediv sw (pow2 (truediv_scalar sh c))) i =
    Some (num_float w /
            ((num_float h / Z2float c) * (num_float h / Z2float c)))%float.
Proof.
  intros Iw Ih. unfold truediv, pow2, truediv_scalar.
  apply nth_error_map2.
  - apply nth_error_values_float, Iw.
  - rewrite !nth_error_map, (nth_error_values_float _ _ _ Ih). reflexivity.
Qed.

Ltac exc_steps H :=
  repeat match type of H with
    | bind ?c _ = inr _ =>
        let E := fresh "E" in
        destruct c eqn:E; simpl in H; [discriminate H|]
    end.

(** C1. In the categorical-plot pipeline the derived [overweight] cell of
    every row is 1 when weight / (height/100)^2 > 25, evaluated in binary64
    as the script does, and 0 otherwise. *)
Theorem overweight_rowwise (df df' : DataFrame) (i : nat) (w h : num) :
  derive_cat df = inr df' ->
  cell df "weight" i = Some w ->
  cell df "height" i = Some h ->
  cell df' "overweight" i =
    Some (NInt (if (25 <? num_float w /
                      ((num_float h / 100) * (num_float h / 100)))%float
                then 1 else 0)).
Proof.
  intros Hd Hw Hh. unfold derive_cat in Hd. exc_steps Hd.
  injection Hd as <-.
  apply cell_loc in Hw as (sw & Lw & Iw), Hh as (sh & Lh & Ih).
  apply getitem_inr in E, E0. rewrite Lw in E. rewrite Lh in E0.
  injection E as <-. injection E0 as <-.
  unfold cell. rewrite !loc_setitem_ne by discriminate.
  rewrite loc_setitem_eq. unfold astype_int, iloc, gt_scalar.
  rewrite !nth_error_map, (nth_error_bmi _ _ _ _ _ _ Iw Ih). simpl.
  rewrite Z2float_25, Z2float_100.
  destruct (25 <? _)%float; reflexivity.
Qed.

Lemma overweight_rowwise_witness :
  cell sample_derived "overweight" 2 = Some (NInt 1).
Proof.
  apply (overweight_rowwise sample sample_derived 2%nat (NFlt 49) (NInt 140));
    vm_compute; reflexivity.
Defined.

(** The quotient is rounded: at height 140 and weight 49 the exact value is
    25, the binary64 value is above 25, and the row is flagged. *)
Remark overweight_rounding :
  derive_cat sample = inr sample_derived /\
  cell sample "height" 2 = Some (NInt 140) /\
  cell sample "weight" 2 = Some (NFlt 49) /\
  49 * (100 * 100) = 25 * (140 * 140) /\
  cell sample_derived "overweight" 2 = Some (NInt 1).
Proof. repeat split; vm_compute; reflexivity. Qed.

Lemma derive_cat_columns df df' :
  derive_cat df = inr df' ->
  exists sw sh sc sg,
    loc df "weight" = Some sw /\ loc df "height" = Some sh /\
    loc df "cholesterol" = Some sc /\ loc df "gluc" = Some sg /\
    df' =
      setitem
        (setitem
           (setitem df "overweight"
              (astype_int
                 (gt_scalar (truediv sw (pow2 (truediv_scalar sh 100))) 25)))
           "cholesterol" (astype_int (series_gt sc 1)))
        "gluc" (astype_int (series_gt sg 1)).
Proof.
  intros Hd. unfold derive_cat in Hd. exc_steps Hd. injection Hd as <-.
  apply getitem_inr in E, E0, E1, E2.
  rewrite loc_setitem_ne in E1 by discriminate.
  rewrite !loc_setitem_ne in E2 by discriminate.
  eauto 10.
Qed.

(** The derivation succeeds on every table that has the four columns. *)
Lemma derive_cat_total df sw sh sc sg :
  loc df "weight" = Some sw -> loc df "height" = Some sh ->
  loc df "cholesterol" = Some sc -> loc df "gluc" = Some sg ->
  exists df', derive_cat df = inr df'.
Proof.
  intros Lw Lh Lc Lg. unfold derive_cat, getitem.
  rewrite Lw, Lh. simpl.
  rewrite loc_setitem_ne, Lc by discriminate. simpl.
  rewrite !loc_setitem_ne, Lg by discriminate. simpl. eauto.
Qed.

Lemma derive_heat_unfold (df : DataFrame) :
  derive_heat df =
    (weight <- getitem df "weight" ;;
     height <- getitem df "height" ;;
     let bmi := truediv weight (pow2 (truediv_scalar height 100)) in
     let df := setitem df "overweight" (astype_int (gt_scalar bmi 25)) in
     cholesterol <- getitem df "cholesterol" ;;
     let df :=
       setitem df "cholesterol" (astype_int (series_gt cholesterol 1)) in
     gluc <- getitem df "gluc" ;;
     let df := setitem df "gluc" (astype_int (series_gt gluc 1)) in
     ret df).
Proof.
  unfold derive_heat.
  destruct (getitem df "weight") as [e|weight]; simpl; [reflexivity|].
  destruct (getitem df "height") as [e|height]; simpl; reflexivity.
Qed.

(** C7. The column derivation of the heat map is the same function as the
    column derivation of the categorical plot: on every table both give
    the same derived table, or raise the same exception. *)
Theorem derive_heat_is_derive_cat (df : DataFrame) :
  derive_heat df = derive_cat df.
Proof. rewrite derive_heat_unfold. reflexivity. Qed.

(** C3. For every row, the transformed cholesterol cell is 1 when the
    original value is greater than 1 and 0 otherwise, and likewise for
    glucose, in both pipelines. *)
Theorem binarized_rowwise (df df' : DataFrame) (i : nat) (c g : num) :
  derive_cat df = inr df' \/ derive_heat df = inr df' ->
  cell df "cholesterol" i = Some c ->
  cell df "gluc" i = Some g ->
  cell df' "cholesterol" i = Some (NInt (if num_gt c 1 then 1 else 0)) /\
  cell df' "gluc" i = Some (NInt (if num_gt g 1 then 1 else 0)).
Proof.
  intros Hd Hc Hg.
  assert (Hd' : derive_cat df = inr df').
  { destruct Hd as [Hd|Hd]; [exact Hd|].
    rewrite derive_heat_unfold in Hd. exact Hd. }
  apply derive_cat_columns in Hd' as (sw & sh & sc & sg & _ & _ & Lc & Lg & ->).
  apply cell_loc in Hc as (sc' & Lc' & Ic), Hg as (sg' & Lg' & Ig).
  rewrite Lc in Lc'. rewrite Lg in Lg'.
  injection Lc' as <-. injection Lg' as <-.
  unfold cell. rewrite loc_setitem_ne by discriminate.
  rewrite !loc_setitem_eq. split; apply iloc_series_gt; assumption.
Qed.

Lemma binarized_rowwise_witness :
  cell sample_derived "cholesterol" 1 = Some (NInt 1) /\
  cell sample_derived "gluc" 1 = Some (NInt 0).
Proof.
  apply (binarized_rowwise sample sample_derived 1%nat (NInt 3) (NInt 1));
    [left| |]; vm_compute; reflexivity.
Defined.

(** *** The row filter *)

Lemma nth_error_select {A : Type} (l : list A) m k x :
  nth_error (select l m) k = Some x ->
  exists i, kth_true m k = Some i /\ nth_error l i = Some x /\
            nth_error m i = Some true.
Proof.
  revert m k. induction l as [|a l IH]; intros [|b m] k; simpl;
    try (destruct k; discriminate).
  destruct b.
  - destruct k as [|k]; simpl.
    + intros [= <-]. exists 0%nat. auto.
    + intros H. apply IH in H as (i & -> & ? & ?). exists (S i). auto.
  - intros H. apply IH in H as (i & -> & ? & ?). exists (S i). auto.
Qed.

Lemma loc_boolean_index df m k :
  loc (boolean_index df m) k =
    option_map (fun s => series_select s m) (loc df k).
Proof.
  induction df as [|[k' s] r IH]; simpl; [reflexivity|].
  destruct (String.eqb k' k); [reflexivity|exact IH].
Qed.

Lemma cell_boolean_index df m name k x :
  cell (boolean_index df m) name k = Some x ->
  exists i, kth_true m k = Some i /\ cell df name i = Some x /\
            nth_error m i = Some true.
Proof.
  unfold cell. rewrite loc_boolean_index.
  destruct (loc df name) as [[l|l]|]; simpl; try discriminate;
    destruct (nth_error (select l m) k) as [y|] eqn:E; simpl;
    try discriminate; intros [= <-];
    apply nth_error_select in E as (i & Hk & Hl & Hm);
    exists i; rewrite Hl; auto.
Qed.

Lemma mask_and_true a b i :
  nth_error (mask_and a b) i = Some true ->
  nth_error a i = Some true /\ nth_error b i = Some true.
Proof.
  unfold mask_and, map2. revert b i.
  induction a as [|x a IH]; intros [|y b] [|i]; simpl; try discriminate.
  - intros [= H]. apply andb_true_iff in H as [-> ->]. auto.
  - apply IH.
Qed.

Lemma nth_error_map2_inv {A B C : Type} (f : A -> B -> C) a b i z :
  nth_error (map2 f a b) i = Some z ->
  exists x y, nth_error a i = Some x /\ nth_error b i = Some y /\ z = f x y.
Proof.
  unfold map2. revert b i.
  induction a as [|x a IH]; intros [|y b] [|i]; simpl; try discriminate.
  - intros [= <-]. eauto.
  - apply IH.
Qed.

Lemma iloc_float l i x : iloc (SFloat l) i = Some x -> exists f, x = NFlt f.
Proof.
  simpl. destruct (nth_error l i) as [f|]; simpl; [|discriminate].
  intros [= <-]. eauto.
Qed.

Lemma iloc_int l i x : iloc (SInt l) i = Some x -> exists z, x = NInt z.
Proof.
  simpl. destruct (nth_error l i) as [z|]; simpl; [|discriminate].
  intros [= <-]. eauto.
Qed.

Lemma series_le_true a b i x y :
  nth_error (series_le a b) i = Some true ->
  iloc a i = Some x -> iloc b i = Some y -> num_le x y = true.
Proof.
  intros H Ia Ib.
  assert (Hf : nth_error (map2 PrimFloat.leb (values_float a) (values_float b)) i
               = Some true -> (num_float x <=? num_float y)%float = true).
  { intros Hm. apply nth_error_map2_inv in Hm as (u & v & Hu & Hv & Huv).
    rewrite (nth_error_values_float _ _ _ Ia) in Hu.
    rewrite (nth_error_values_float _ _ _ Ib) in Hv.
    injection Hu as <-. injection Hv as <-. symmetry. exact Huv. }
  destruct a as [la|la], b as [lb|lb].
  - simpl in H. apply nth_error_map2_inv in H as (u & v & Hu & Hv & Huv).
    simpl in Ia, Ib. rewrite Hu in Ia. rewrite Hv in Ib.
    injection Ia as <-. injection Ib as <-. simpl. symmetry. exact Huv.
  - apply Hf in H. apply iloc_float in Ib as (f & ->).
    destruct x; exact H.
  - apply Hf in H. apply iloc_float in Ia as (f & ->). exact H.
  - apply Hf in H. apply iloc_float in Ia as (f & ->). exact H.
Qed.

Lemma ge_scalar_true s q i x :
  nth_error (ge_scalar s q) i = Some true ->
  iloc s i = Some x -> (q <=? num_float x)%float = true.
Proof.
  unfold ge_scalar. intros H Ix.
  rewrite nth_error_map, (nth_error_values_float _ _ _ Ix) in H.
  injection H as H. exact H.
Qed.

Lemma le_scalar_true s q i x :
  nth_error (le_scalar s q) i = Some true ->
  iloc s i = Some x -> (num_float x <=? q)%float = true.
Proof.
  unfold le_scalar. intros H Ix.
  rewrite nth_error_map, (nth_error_values_float _ _ _ Ix) in H.
  injection H as H. exact H.
Qed.

Lemma ge_quantile_inr df k q m :
  ge_quantile df k q = inr m ->
  exists s, loc df k = Some s /\ m = ge_scalar s (quantile s q).
Proof.
  unfold ge_quantile, getitem. destruct (loc df k) as [s|]; simpl;
    [|discriminate].
  intros [= <-]. eauto.
Qed.

Lemma le_quantile_inr df k q m :
  le_quantile df k q = inr m ->
  exists s, loc df k = Some s /\ m = le_scalar s (quantile s q).
Proof.
  unfold le_quantile, getitem. destruct (loc df k) as [s|]; simpl;
    [|discriminate].
  intros [= <-]. eauto.
Qed.

(** The rows kept by the filter, read in the table it is applied to. *)
Lemma heat_filter_rows df df_heat k lo hi h w :
  heat_filter df = inr df_heat ->
  cell df_heat "ap_lo" k = Some lo ->
  cell df_heat "ap_hi" k = Some hi ->
  cell df_heat "height" k = Some h ->
  cell df_heat "weight" k = Some w ->
  exists heights weights,
    loc df "height" = Some heights /\ loc df "weight" = Some weights /\
    num_le lo hi = true /\
    (quantile heights 0.025 <=? num_float h)%float = true /\
    (num_float h <=? quantile heights 0.975)%float = true /\
    (quantile weights 0.025 <=? num_float w)%float = true /\
    (num_float w <=? quantile weights 0.975)%float = true.
Proof.
  intros Hf Hlo Hhi Hh Hw. unfold heat_filter in Hf. exc_steps Hf.
  injection Hf as <-.
  apply getitem_inr in E, E0.
  apply ge_quantile_inr in E1 as (sh & Lh & ->).
  apply le_quantile_inr in E2 as (sh' & Lh' & ->).
  apply ge_quantile_inr in E3 as (sw & Lw & ->).
  apply le_quantile_inr in E4 as (sw' & Lw' & ->).
  rewrite Lh in Lh'. injection Lh' as <-.
  rewrite Lw in Lw'. injection Lw' as <-.
  exists sh, sw. split; [exact Lh|]. split; [exact Lw|].
  apply cell_boolean_index in Hlo as (i & Ki & Clo & Hm).
  apply cell_boolean_index in Hhi as (i1 & Ki1 & Chi & _).
  apply cell_boolean_index in Hh as (i2 & Ki2 & Ch & _).
  apply cell_boolean_index in Hw as (i3 & Ki3 & Cw & _).
  rewrite Ki in Ki1, Ki2, Ki3.
  injection Ki1 as <-. injection Ki2 as <-. injection Ki3 as <-.
  apply mask_and_true in Hm as (Hm & M5).
  apply mask_and_true in Hm as (Hm & M4).
  apply mask_and_true in Hm as (Hm & M3).
  apply mask_and_true in Hm as (M1 & M2).
  unfold cell in Clo, Chi, Ch, Cw. rewrite E in Clo. rewrite E0 in Chi.
  rewrite Lh in Ch. rewrite Lw in Cw.
  repeat split.
  - eapply series_le_true; eassumption.
  - eapply ge_scalar_true; eassumption.
  - eapply le_scalar_true; eassumption.
  - eapply ge_scalar_true; eassumption.
  - eapply le_scalar_true; eassumption.
Qed.

(** C2. In the heat-map pipeline every row kept by the filter has
    [ap_lo <= ap_hi], and its height and weight lie between the 2.5th and
    the 97.5th percentile of the height and weight columns of the
    unfiltered table (derived columns added, no row removed). *)
Theorem retained_rows_within_bounds
  (raw df df_heat : DataFrame) (c mask : Matrix) (k : nat) (lo hi h w : num) :
  heat_tables raw = inr (df, df_heat, c, mask) ->
  cell df_heat "ap_lo" k = Some lo ->
  cell df_heat "ap_hi" k = Some hi ->
  cell df_heat "height" k = Some h ->
  cell df_heat "weight" k = Some w ->
  exists heights weights,
    loc df "height" = Some heights /\ loc df "weight" = Some weights /\
    derive_heat raw = inr df /\
    num_le lo hi = true /\
    (quantile heights 0.025 <=? num_float h)%float = true /\
    (num_float h <=? quantile heights 0.975)%float = true /\
    (quantile weights 0.025 <=? num_float w)%float = true /\
    (num_float w <=? quantile weights 0.975)%float = true.
Proof.
  intros Ht Hlo Hhi Hh Hw. unfold heat_tables in Ht. exc_steps Ht.
  injection Ht as <- <- _ _.
  destruct (heat_filter_rows _ _ _ _ _ _ _ E0 Hlo Hhi Hh Hw)
    as (sh & sw & ? & ? & ?).
  exists sh, sw. auto.
Qed.

Lemma retained_rows_within_bounds_witness :
  exists heights weights,
    loc sample_derived "height" = Some heights /\
    loc sample_derived "weight" = Some weights /\
    derive_heat sample = inr sample_derived /\
    num_le (NInt 80) (NInt 110) = true /\
    (quantile heights 0.025 <=? 168)%float = true /\
    (168 <=? quantile heights 0.975)%float = true /\
    (quantile weights 0.025 <=? 62)%float = true /\
    (62 <=? quantile weights 0.975)%float = true.
Proof.
  apply (retained_rows_within_bounds sample sample_derived sample_kept
           (corr sample_kept) (np_triu (corr sample_kept)) 0%nat
           (NInt 80) (NInt 110) (NInt 168) (NFlt 62));
    vm_compute; reflexivity.
Defined.

(** *** Melting and counting *)

Lemma key_eqb_eq a b :
  int_key a -> int_key b -> key_eqb a b = true <-> a = b.
Proof.
  intros (c1 & v1 & x1 & ->) (c2 & v2 & x2 & ->). simpl.
  rewrite !andb_true_iff, !Z.eqb_eq, String.eqb_eq. split.
  - intros [[-> ->] ->]. reflexivity.
  - intros [= -> -> ->]. auto.
Qed.

Lemma key_eqb_refl k : key_isna k = false -> key_eqb k k = true.
Proof.
  destruct k as [[c v] x]. simpl. intros H.
  apply orb_false_iff in H as [Hc Hx].
  assert (R : forall a, num_isna a = false -> num_eqb a a = true).
  { intros [z|f]; simpl; [intros _; apply Z.eqb_refl|].
    unfold is_nan. intros E. apply negb_false_iff in E. exact E. }
  rewrite (R c Hc), (R x Hx), String.eqb_refl. reflexivity.
Qed.

Lemma int_key_notna k : int_key k -> key_isna k = false.
Proof. intros (c & v & x & ->). reflexivity. Qed.

Lemma insert_key_perm k l : Permutation (insert_key k l) (k :: l).
Proof.
  induction l as [|a l IH]; simpl; [reflexivity|].
  destruct (key_leb k a); [reflexivity|].
  rewrite IH. apply perm_swap.
Qed.

Lemma sort_keys_perm l : Permutation (sort_keys l) l.
Proof.
  induction l as [|a l IH]; simpl; [reflexivity|].
  rewrite insert_key_perm. apply perm_skip, IH.
Qed.

Lemma unique_incl l k : In k (unique l) -> In k l.
Proof.
  induction l as [|a l IH]; simpl; [tauto|].
  destruct (existsb (key_eqb a) l); simpl; intuition.
Qed.

Lemma sum_filter_perm (f : key -> Z) (P : key -> bool) l l' :
  Permutation l l' ->
  fold_right Z.add 0 (map f (filter P l)) =
  fold_right Z.add 0 (map f (filter P l')).
Proof.
  induction 1 as [|x l l' _ IH|x y l|l l' l'' _ IH1 _ IH2]; simpl.
  - reflexivity.
  - destruct (P x); simpl; rewrite IH; reflexivity.
  - destruct (P x), (P y); simpl; lia.
  - rewrite IH1. exact IH2.
Qed.

Lemma total_of_map v (f : key -> Z) u :
  total_of v (map (fun k => (k, f k)) u) =
  fold_right Z.add 0 (map f (filter (has_variable v) u)).
Proof.
  unfold total_of, has_variable.
  induction u as [|a u IH]; simpl; [reflexivity|].
  destruct (String.eqb (key_variable a) v); simpl; rewrite IH; reflexivity.
Qed.

Lemma group_size_cons ks k k' :
  group_size (k :: ks) k' =
    ((if key_eqb k' k then 1 else 0) + group_size ks k')%nat.
Proof. unfold group_size. simpl. destruct (key_eqb k' k); reflexivity. Qed.

Lemma group_size_absent ks k :
  existsb (key_eqb k) ks = false -> group_size ks k = 0%nat.
Proof.
  unfold group_size. induction ks as [|a ks IH]; simpl; [reflexivity|].
  intros H. apply orb_false_iff in H as [-> H]. auto.
Qed.

Lemma sum_sizes_cons P k ks u :
  sum_sizes P (k :: ks) u = occurrences P k u + sum_sizes P ks u.
Proof.
  unfold sum_sizes, occurrences.
  induction u as [|a u IH]; simpl; [reflexivity|].
  destruct (P a); simpl; [|exact IH].
  rewrite group_size_cons, IH.
  destruct (key_eqb a k); simpl List.length; lia.
Qed.

Lemma occurrences_step P k a u :
  occurrences P k (a :: u) =
    (if P a && key_eqb a k then 1 else 0) + occurrences P k u.
Proof.
  unfold occurrences. simpl filter.
  destruct (P a && key_eqb a k); simpl List.length; lia.
Qed.

Lemma sum_sizes_step P ks a u :
  sum_sizes P ks (a :: u) =
    (if P a then Z.of_nat (group_size ks a) else 0) + sum_sizes P ks u.
Proof. unfold sum_sizes. simpl filter. destruct (P a); reflexivity. Qed.

(** The comparison of cells is symmetric, and transitive within a dtype. *)
Lemma num_eqb_sym a b : num_eqb a b = num_eqb b a.
Proof.
  destruct a, b; simpl; first [apply Z.eqb_sym|apply feqb_sym].
Qed.

Lemma num_eqb_trans a b c :
  kind a = kind b -> kind b = kind c ->
  num_eqb a b = true -> num_eqb b c = true -> num_eqb a c = true.
Proof.
  destruct a, b, c; simpl; try discriminate; intros _ _.
  - rewrite !Z.eqb_eq. congruence.
  - apply feqb_trans.
Qed.

Lemma num_eqb_refl a : num_isna a = false -> num_eqb a a = true.
Proof.
  destruct a as [z|f]; simpl; [intros _; apply Z.eqb_refl|].
  unfold is_nan. intros E. apply negb_false_iff in E. exact E.
Qed.

Lemma num_eqb_notna a b : num_eqb a b = true -> num_isna a = false.
Proof.
  destruct a as [z|f]; [reflexivity|].
  destruct b; simpl; apply feqb_notnan.
Qed.

Lemma key_eqb_sym a b : key_eqb a b = key_eqb b a.
Proof.
  destruct a as [[c1 v1] x1], b as [[c2 v2] x2]. simpl.
  rewrite (num_eqb_sym c1 c2), (num_eqb_sym x1 x2), (String.eqb_sym v1 v2).
  reflexivity.
Qed.

Lemma key_eqb_variable a b :
  key_eqb a b = true -> key_variable a = key_variable b.
Proof.
  destruct a as [[c1 v1] x1], b as [[c2 v2] x2]. simpl.
  rewrite !andb_true_iff, String.eqb_eq. tauto.
Qed.

Lemma has_variable_compat v a b :
  key_eqb a b = true -> has_variable v a = has_variable v b.
Proof.
  intros H. unfold has_variable. rewrite (key_eqb_variable _ _ H). reflexivity.
Qed.

Section GroupKeys.

Variables bc bx : bool.
Variable P : key -> bool.
Hypothesis P_compat : forall a b, key_eqb a b = true -> P a = P b.

Local Abbreviation good := (good_key bc bx).

Lemma good_refl k : good k -> key_eqb k k = true.
Proof. intros (_ & _ & H). apply key_eqb_refl, H. Qed.

Lemma key_eqb_trans a b c :
  good a -> good b -> good c ->
  key_eqb a b = true -> key_eqb b c = true -> key_eqb a c = true.
Proof.
  destruct a as [[c1 v1] x1], b as [[c2 v2] x2], c as [[c3 v3] x3].
  unfold good_key. simpl.
  intros (Ka & Xa & _) (Kb & Xb & _) (Kc & Xc & _).
  rewrite !andb_true_iff, !String.eqb_eq.
  intros [[H1 ->] H2] [[H3 ->] H4]. repeat split.
  - apply (num_eqb_trans c1 c2 c3); congruence.
  - apply (num_eqb_trans x1 x2 x3); congruence.
Qed.

(** Equal keys compare alike with any third key. *)
Lemma key_eqb_congr a b y :
  good a -> good b -> good y ->
  key_eqb a b = true -> key_eqb a y = key_eqb b y.
Proof.
  intros Ha Hb Hy Hab. apply eq_true_iff_eq. split; intros H.
  - apply (key_eqb_trans b a y); try assumption.
    rewrite key_eqb_sym. exact Hab.
  - apply (key_eqb_trans a b y); assumption.
Qed.

Lemma existsb_congr a b ks :
  good a -> good b -> Forall good ks ->
  key_eqb a b = true ->
  existsb (key_eqb a) ks = existsb (key_eqb b) ks.
Proof.
  intros Ha Hb Hks Hab. induction Hks as [|y ks Hy _ IH]; [reflexivity|].
  simpl. rewrite IH, (key_eqb_congr a b y) by assumption. reflexivity.
Qed.

(** Among the distinct keys of [ks], exactly one equals a key that occurs
    in [ks], and none equals a key that does not. *)
Lemma occurrences_unique k ks :
  good k -> Forall good ks ->
  occurrences P k (unique ks) =
    if existsb (key_eqb k) ks then (if P k then 1 else 0) else 0.
Proof.
  intros Hk Hks. induction Hks as [|a ks Ha Hks IH]; [reflexivity|].
  simpl unique. simpl existsb.
  destruct (key_eqb k a) eqn:Eka.
  - simpl orb.
    rewrite (existsb_congr k a ks Hk Ha Hks Eka) in IH.
    destruct (existsb (key_eqb a) ks) eqn:Ex; [exact IH|].
    rewrite occurrences_step, IH.
    rewrite (key_eqb_sym a k), Eka, andb_true_r, (P_compat k a Eka).
    destruct (P a); lia.
  - simpl orb. destruct (existsb (key_eqb a) ks) eqn:Ex; [exact IH|].
    rewrite occurrences_step, IH, (key_eqb_sym a k), Eka, andb_false_r. lia.
Qed.

(** The sizes of the distinct groups add up to the number of keys. *)
Lemma sum_sizes_unique ks :
  Forall good ks ->
  sum_sizes P ks (unique ks) = Z.of_nat (List.length (filter P ks)).
Proof.
  induction 1 as [|k ks Hk Hks IH]; [reflexivity|].
  pose proof (good_refl k Hk) as Rk.
  pose proof (occurrences_unique k ks Hk Hks) as Ho.
  rewrite sum_sizes_cons. simpl unique. simpl filter.
  destruct (existsb (key_eqb k) ks) eqn:Ex.
  - rewrite Ho, IH. destruct (P k); simpl List.length; lia.
  - rewrite occurrences_step, sum_sizes_step, Ho, IH, Rk, andb_true_r.
    rewrite (group_size_absent _ _ Ex).
    destruct (P k); simpl List.length; lia.
Qed.

(** Relabelling every key by an equal one changes neither the groups nor
    their sizes. *)
Lemma group_size_labels ks (f : key -> key) k :
  Forall good ks ->
  (forall a, good a -> good (f a) /\ key_eqb (f a) a = true) ->
  good k ->
  group_size (map f ks) k = group_size ks k.
Proof.
  intros Hks Hf Hk. induction Hks as [|a ks Ha _ IH]; [reflexivity|].
  simpl map. rewrite !group_size_cons, IH.
  destruct (Hf a Ha) as [Hfa Ea].
  assert (E : key_eqb k (f a) = key_eqb k a).
  { rewrite (key_eqb_sym k (f a)), (key_eqb_sym k a).
    apply key_eqb_congr; assumption. }
  rewrite E. reflexivity.
Qed.

Lemma sum_sizes_labels ks (f : key -> key) u :
  Forall good ks ->
  (forall a, good a -> good (f a) /\ key_eqb (f a) a = true) ->
  Forall good u ->
  sum_sizes P (map f ks) u = sum_sizes P ks u.
Proof.
  intros Hks Hf Hu. unfold sum_sizes.
  induction Hu as [|k u Hk _ IH]; [reflexivity|].
  simpl filter. destruct (P k); [|exact IH].
  simpl. rewrite IH, (group_size_labels ks f k) by assumption. reflexivity.
Qed.

Lemma filter_labels ks (f : key -> key) :
  Forall good ks ->
  (forall a, good a -> good (f a) /\ key_eqb (f a) a = true) ->
  List.length (filter P (map f ks)) = List.length (filter P ks).
Proof.
  intros Hks Hf. induction Hks as [|a ks Ha _ IH]; [reflexivity|].
  simpl. destruct (Hf a Ha) as [_ Ea]. rewrite (P_compat _ _ Ea).
  destruct (P a); simpl; rewrite IH; reflexivity.
Qed.

Lemma unique_good ks : Forall good ks -> Forall good (unique ks).
Proof.
  intros H. apply Forall_forall. intros k Hk.
  rewrite Forall_forall in H. apply H, unique_incl, Hk.
Qed.

(** The sizes of the groups, listed under their labels, add up to the
    number of keys. *)
Lemma sum_sizes_labelled ks (f : key -> key) :
  Forall good ks ->
  (forall a, good a -> good (f a) /\ key_eqb (f a) a = true) ->
  sum_sizes P ks (unique (map f ks)) = Z.of_nat (List.length (filter P ks)).
Proof.
  intros Hks Hf.
  assert (Hm : Forall good (map f ks)).
  { apply Forall_forall. intros k Hk.
    apply in_map_iff in Hk as (a & <- & Ha).
    rewrite Forall_forall in Hks. apply Hf, Hks, Ha. }
  rewrite <- (sum_sizes_labels ks f) by (try assumption; apply unique_good, Hm).
  rewrite sum_sizes_unique by exact Hm.
  rewrite filter_labels by assumption. reflexivity.
Qed.

End GroupKeys.

Lemma combine_app {A B : Type} (a1 a2 : list A) (b1 b2 : list B) :
  List.length a1 = List.length b1 ->
  combine (a1 ++ a2) (b1 ++ b2) = combine a1 b1 ++ combine a2 b2.
Proof.
  revert b1. induction a1 as [|x a1 IH]; intros [|y b1]; simpl;
    try discriminate; [reflexivity|].
  intros [= H]. rewrite IH by exact H. reflexivity.
Qed.

Lemma nth_error_combine {A B : Type} (a : list A) (b : list B) i x y :
  nth_error (combine a b) i = Some (x, y) ->
  nth_error a i = Some x /\ nth_error b i = Some y.
Proof.
  revert b i. induction a as [|x0 a IH]; intros [|y0 b] [|i]; simpl;
    try discriminate.
  - intros [= -> ->]. auto.
  - apply IH.
Qed.

Lemma block_length id v l :
  List.length id = List.length l -> List.length (block id v l) = List.length l.
Proof.
  intros H. unfold block, key.
  rewrite !length_combine, !length_map, repeat_length. lia.
Qed.

Lemma block_rows id v l k :
  In k (block id v l) ->
  exists i c x,
    k = (NInt c, v, NInt x) /\ nth_error id i = Some c /\
    nth_error l i = Some x.
Proof.
  intros H. apply In_nth_error in H as [i Hi].
  destruct k as [[c0 v0] x0]. unfold block in Hi.
  apply nth_error_combine in Hi as [Hi Hx].
  apply nth_error_combine in Hi as [Hc Hv].
  rewrite nth_error_map in Hc, Hx.
  destruct (nth_error id i) as [c|] eqn:Ec; [|discriminate].
  destruct (nth_error l i) as [x|] eqn:Ex; [|discriminate].
  injection Hc as <-. injection Hx as <-.
  apply nth_error_In, repeat_spec in Hv. subst v0.
  exists i, c, x. auto.
Qed.

Lemma block_int_key id v l : Forall int_key (block id v l).
Proof.
  apply Forall_forall. intros k H.
  apply block_rows in H as (_ & c & x & -> & _). exists c, v, x. reflexivity.
Qed.

Lemma filter_block_same id v l :
  filter (has_variable v) (block id v l) = block id v l.
Proof.
  apply forallb_filter_id, forallb_forall. intros k H.
  apply block_rows in H as (_ & c & x & -> & _).
  apply String.eqb_refl.
Qed.

Lemma filter_block_other id v v' l :
  v' <> v -> filter (has_variable v) (block id v' l) = [].
Proof.
  intros Hne.
  assert (F : forall ks, Forall (fun k => has_variable v k = false) ks ->
                         filter (has_variable v) ks = []).
  { induction 1 as [|k ks Hk _ IH]; simpl; [reflexivity|].
    rewrite Hk. exact IH. }
  apply F, Forall_forall. intros k H.
  apply block_rows in H as (_ & c & x & -> & _).
  apply String.eqb_neq. exact Hne.
Qed.

(** The keys of a melted table are the blocks of its columns, one after
    the other. *)
Lemma keys_blocks id (cols : list (string * list Z)) :
  Forall (fun p => List.length (snd p) = List.length id) cols ->
  combine
    (combine (map NInt (flat_map (fun _ => id) cols))
       (flat_map (fun p => repeat (fst p) (List.length (snd p))) cols))
    (map NInt (flat_map snd cols)) =
  flat_map (fun p => block id (fst p) (snd p)) cols.
Proof.
  induction 1 as [|[v l] cols Hl _ IH]; simpl; [reflexivity|].
  simpl in Hl. rewrite !map_app, !combine_app, IH; [reflexivity|..].
  all: rewrite ?length_combine, ?length_map, ?repeat_length; lia.
Qed.

Lemma nrows_loc df n k s : nrows df n -> loc df k = Some s -> len s = n.
Proof.
  unfold nrows. induction 1 as [|[k' s'] r Hc _ IH]; simpl; [discriminate|].
  destruct (String.eqb k' k); [intros [= <-]; exact Hc|exact IH].
Qed.

Lemma values_float_length s : List.length (values_float s) = len s.
Proof. destruct s; simpl; [apply length_map|reflexivity]. Qed.

Lemma series_gt_length s c : List.length (series_gt s c) = len s.
Proof. destruct s; simpl; unfold gt_scalar; apply length_map. Qed.

Lemma bmi_length sw sh c n :
  len sw = n -> len sh = n ->
  List.length (gt_scalar (truediv sw (pow2 (truediv_scalar sh c))) 25) = n.
Proof.
  intros Hw Hh. unfold gt_scalar, truediv, map2, pow2, truediv_scalar.
  rewrite !length_map, length_combine, !length_map, !values_float_length. lia.
Qed.

Lemma int_column_loc df k :
  int_column df k = true -> exists l, loc df k = Some (SInt l).
Proof.
  unfold int_column. destruct (loc df k) as [[l|l]|]; try discriminate. eauto.
Qed.

(** After the derivation the identifier and the six melted columns are
    int64 columns with as many rows as the loaded table. *)
Lemma derived_int_cols raw df n :
  nrows raw n -> int_coded raw = true -> derive_cat raw = inr df ->
  Forall (int_col df n) ("cardio" :: value_vars).
Proof.
  intros Hn Hi Hd.
  apply derive_cat_columns in Hd as (sw & sh & sc & sg & Lw & Lh & Lc & Lg & ->).
  unfold int_coded in Hi. simpl in Hi.
  repeat (apply andb_true_iff in Hi as [?%int_column_loc Hi]).
  repeat match goal with H : exists _, _ |- _ => destruct H as [? H] end.
  pose proof (fun k s => nrows_loc raw n k s Hn) as Hlen.
  unfold value_vars.
  repeat constructor; unfold int_col;
    rewrite ?loc_setitem_eq, ?loc_setitem_ne by discriminate;
    rewrite ?loc_setitem_eq, ?loc_setitem_ne by discriminate.
  all: eexists; split; [first [eassumption|reflexivity]|].
  all: try (rewrite length_map;
            first [ rewrite series_gt_length; eapply Hlen; eassumption
                  | apply bmi_length; eapply Hlen; eassumption ]).
  all: match goal with
       | H : loc _ _ = Some (SInt ?l) |- List.length ?l = _ =>
           exact (Hlen _ _ H)
       end.
Qed.

(** The long table of an integer-coded table: its keys are the six blocks,
    and every key is a row of the source table read under one variable. *)
Lemma melt_inr_value df id_var vars m :
  melt df id_var vars = inr m -> loc df "value" = None.
Proof.
  unfold melt. destruct (loc df "value"); [discriminate|reflexivity].
Qed.

Lemma cat_counts_inr df t :
  cat_counts df = inr t ->
  exists m, melt df "cardio" value_vars = inr m /\ t = groupby_count m.
Proof.
  unfold cat_counts.
  destruct (melt df "cardio" value_vars) as [e|m]; [discriminate|].
  intros [= <-]. eauto.
Qed.

Lemma cat_counts_inr_value df t :
  cat_counts df = inr t -> loc df "value" = None.
Proof.
  intros H. apply cat_counts_inr in H as (m & Hm & _).
  exact (melt_inr_value _ _ _ _ Hm).
Qed.

Lemma melt_int_cols df n :
  loc df "value" = None ->
  Forall (int_col df n) ("cardio" :: value_vars) ->
  exists m id cols,
    melt df "cardio" value_vars = inr m /\
    melted_keys m = flat_map (fun p => block id (fst p) (snd p)) cols /\
    map fst cols = value_vars /\
    loc df "cardio" = Some (SInt id) /\ List.length id = n /\
    Forall (fun p => loc df (fst p) = Some (SInt (snd p)) /\
                     List.length (snd p) = n) cols.
Proof.
  unfold value_vars. intros Hv H.
  repeat match goal with
         | H : Forall _ (_ :: _) |- _ =>
             let l := fresh "l" in
             let L := fresh "L" in
             let N := fresh "N" in
             apply Forall_cons_iff in H as [(l & L & N) H]
         end.
  unfold melt, getitem. rewrite Hv.
  cbn [filter]. rewrite L, L0, L1, L2, L3, L4, L5.
  cbn [bind ret columns flat_map app]. rewrite L0, L1, L2, L3, L4, L5.
  eexists. exists l.
  exists [("cholesterol", l0); ("gluc", l1); ("smoke", l2); ("alco", l3);
          ("active", l4); ("overweight", l5)].
  split; [reflexivity|]. split.
  - unfold melted_keys. simpl.
    apply (keys_blocks l
             [("cholesterol", l0); ("gluc", l1); ("smoke", l2); ("alco", l3);
              ("active", l4); ("overweight", l5)]).
    repeat constructor; simpl; congruence.
  - repeat split; try assumption. repeat constructor; assumption.
Qed.

Lemma filter_id {A : Type} (f : A -> bool) l :
  Forall (fun x => f x = true) l -> filter f l = l.
Proof.
  induction 1 as [|x l Hx _ IH]; simpl; [reflexivity|].
  rewrite Hx, IH. reflexivity.
Qed.

Lemma blocks_int_key id (cols : list (string * list Z)) :
  Forall int_key (flat_map (fun p => block id (fst p) (snd p)) cols).
Proof.
  induction cols as [|p cols IH]; simpl; [constructor|].
  apply Forall_app. split; [apply block_int_key|exact IH].
Qed.

(** On an integer-coded table every key is its own label. *)
Lemma first_seen_int s c :
  In (NInt c) (cells s) -> first_seen (cells s) (NInt c) = NInt c.
Proof.
  destruct s as [l|l]; simpl; intros H;
    apply in_map_iff in H as (z & E & Hz); [|discriminate].
  injection E as ->. unfold first_seen.
  induction l as [|a l IH]; [contradiction|]. simpl.
  destruct (Z.eqb_spec a c) as [->|Hne]; [reflexivity|].
  apply IH. destruct Hz; [contradiction|assumption].
Qed.

Lemma label_int m k : int_key k -> In k (melted_keys m) -> label m k = k.
Proof.
  intros (c & v & x & ->) Hin. unfold melted_keys in Hin.
  pose proof (in_combine_l _ _ _ _ Hin) as H1.
  apply in_combine_l in H1. apply in_combine_r in Hin.
  unfold label. rewrite !first_seen_int by assumption. reflexivity.
Qed.

Lemma groupby_count_int m :
  Forall int_key (melted_keys m) ->
  groupby_count m =
    map (fun k => (k, Z.of_nat (group_size (melted_keys m) k)))
      (sort_keys (unique (melted_keys m))).
Proof.
  intros H. unfold groupby_count.
  rewrite (filter_id (fun k => negb (key_isna k))).
  - rewrite (map_ext_in (label m) (fun k => k)), map_id; [reflexivity|].
    intros k Hk. rewrite Forall_forall in H. apply label_int; auto.
  - eapply Forall_impl; [|exact H].
    intros k Hi. rewrite (int_key_notna k Hi). reflexivity.
Qed.

(** *** The totals of one variable *)

(** The cells of a column have the column's dtype, and the label of a cell
    is a cell equal to it. *)
Lemma kind_cells s x : In x (cells s) -> kind x = is_int s.
Proof.
  destruct s; simpl; intros H; apply in_map_iff in H as (? & <- & _);
    reflexivity.
Qed.

Lemma first_seen_eqb col x :
  num_isna x = false -> num_eqb (first_seen col x) x = true.
Proof.
  intros H. unfold first_seen.
  destruct (find (fun y => num_eqb y x) col) eqn:E.
  - apply find_some in E as [_ E]. exact E.
  - apply num_eqb_refl, H.
Qed.

Lemma label_good m a :
  good_key (is_int (m_id m)) (is_int (m_value m)) a ->
  good_key (is_int (m_id m)) (is_int (m_value m)) (label m a) /\
  key_eqb (label m a) a = true.
Proof.
  assert (F : forall s y,
             kind y = is_int s -> num_isna y = false ->
             kind (first_seen (cells s) y) = is_int s /\
             num_isna (first_seen (cells s) y) = false /\
             num_eqb (first_seen (cells s) y) y = true).
  { intros s y Ky Hy. pose proof (first_seen_eqb (cells s) y Hy) as E.
    split; [|split; [eapply num_eqb_notna; exact E|exact E]].
    unfold first_seen.
    destruct (find (fun y0 => num_eqb y0 y) (cells s)) eqn:Ef; [|exact Ky].
    apply find_some in Ef as [Ef _]. apply kind_cells, Ef. }
  destruct a as [[c v] x]. unfold good_key. simpl.
  intros (Kc & Kx & Hna). apply orb_false_iff in Hna as [Hc Hx].
  destruct (F (m_id m) c Kc Hc) as (A1 & A2 & A3).
  destruct (F (m_value m) x Kx Hx) as (B1 & B2 & B3).
  rewrite A2, B2, A3, B3, String.eqb_refl. auto.
Qed.

Lemma melted_keys_good m :
  Forall (good_key (is_int (m_id m)) (is_int (m_value m)))
    (filter (fun k => negb (key_isna k)) (melted_keys m)).
Proof.
  apply Forall_forall. intros [[c v] x] H.
  apply filter_In in H as [Hin Hna]. apply negb_true_iff in Hna.
  unfold melted_keys in Hin.
  pose proof (in_combine_l _ _ _ _ Hin) as H1.
  apply in_combine_l in H1. apply in_combine_r in Hin.
  unfold good_key. simpl. repeat split.
  - apply kind_cells, H1.
  - apply kind_cells, Hin.
  - exact Hna.
Qed.

(** Equal cells of a column get one and the same label, so that among
    labelled keys equal keys are identical. *)
Lemma first_seen_congr s x x' :
  In x (cells s) -> kind x' = is_int s -> num_eqb x x' = true ->
  first_seen (cells s) x = first_seen (cells s) x'.
Proof.
  intros Hin Kx' E. pose proof (kind_cells s x Hin) as Kx.
  assert (F : forall col,
             (forall y, In y col -> kind y = is_int s) ->
             find (fun y => num_eqb y x) col =
             find (fun y => num_eqb y x') col).
  { induction col as [|y col IH]; intros Hk; [reflexivity|]. simpl.
    assert (Ey : num_eqb y x = num_eqb y x').
    { pose proof (Hk y (or_introl eq_refl)) as Ky.
      apply eq_true_iff_eq. split; intros H.
      - apply (num_eqb_trans y x x'); congruence.
      - apply (num_eqb_trans y x' x); try congruence.
        rewrite num_eqb_sym. exact E. }
    rewrite Ey, IH by (intros z Hz; apply Hk; right; exact Hz).
    reflexivity. }
  unfold first_seen. rewrite <- (F (cells s) (kind_cells s)).
  destruct (find (fun y => num_eqb y x) (cells s)) eqn:Ef; [reflexivity|].
  pose proof (find_none _ _ Ef x Hin) as N. simpl in N.
  rewrite (num_eqb_refl x (num_eqb_notna _ _ E)) in N. discriminate.
Qed.

Lemma label_congr m a b :
  In a (melted_keys m) ->
  good_key (is_int (m_id m)) (is_int (m_value m)) b ->
  key_eqb a b = true -> label m a = label m b.
Proof.
  destruct a as [[c v] x], b as [[c' v'] x']. unfold good_key. simpl.
  intros Hin (Kc & Kx & _) E.
  apply andb_true_iff in E as [E Ex]. apply andb_true_iff in E as [Ec Ev].
  apply String.eqb_eq in Ev as <-.
  unfold melted_keys in Hin.
  pose proof (in_combine_l _ _ _ _ Hin) as H1.
  apply in_combine_l in H1. apply in_combine_r in Hin.
  rewrite (first_seen_congr _ c c'), (first_seen_congr _ x x') by assumption.
  reflexivity.
Qed.

(** The totals of one variable add up to the number of its rows in the
    long table whose key holds no missing value. *)
Lemma total_of_groupby m v :
  total_of v (groupby_count m) =
    Z.of_nat
      (List.length
         (filter (has_variable v)
            (filter (fun k => negb (key_isna k)) (melted_keys m)))).
Proof.
  unfold groupby_count.
  rewrite total_of_map.
  rewrite (sum_filter_perm _ _ _ _ (sort_keys_perm _)).
  apply (sum_sizes_labelled (is_int (m_id m)) (is_int (m_value m))
           (has_variable v) (has_variable_compat v)).
  - apply melted_keys_good.
  - apply label_good.
Qed.

(** The long table of any table that [melt] accepts. *)
Lemma filter_nil_all {A : Type} (f : A -> bool) l :
  filter f l = [] -> Forall (fun x => f x = false) l.
Proof.
  induction l as [|a l IH]; simpl; [constructor|].
  destruct (f a) eqn:E; [discriminate|]. constructor; auto.
Qed.

Lemma melt_inr df id_var vars m :
  melt df id_var vars = inr m ->
  exists id,
    loc df id_var = Some id /\
    Forall (fun k => absent df k = false) vars /\
    m = {| m_id := concat_series (repeat id (List.length vars));
           m_variable :=
             flat_map
               (fun k => match loc df k with
                         | Some s => repeat k (len s)
                         | None => []
                         end) vars;
           m_value := concat_series (columns df vars) |}.
Proof.
  unfold melt. destruct (loc df "value"); [discriminate|].
  destruct (filter _ (id_var :: vars)) eqn:F; [|discriminate].
  apply filter_nil_all in F. inversion F as [|? ? Hid Hvars]; subst.
  unfold getitem. destruct (loc df id_var) as [id|]; [|discriminate].
  simpl. intros [= <-]. exists id. repeat split. exact Hvars.
Qed.

Lemma present_cols df vars :
  Forall (fun k => absent df k = false) vars ->
  exists cols : list (string * Series),
    map fst cols = vars /\
    Forall (fun p => loc df (fst p) = Some (snd p)) cols.
Proof.
  induction 1 as [|k vars Hk _ (cols & Hf & Hc)].
  - exists []. split; constructor.
  - unfold absent in Hk. destruct (loc df k) as [s|] eqn:E; [|discriminate].
    exists ((k, s) :: cols). split; [simpl; congruence|].
    constructor; assumption.
Qed.

Lemma columns_cols df (cols : list (string * Series)) :
  Forall (fun p => loc df (fst p) = Some (snd p)) cols ->
  columns df (map fst cols) = map snd cols /\
  flat_map (fun k => match loc df k with
                     | Some s => repeat k (len s)
                     | None => []
                     end) (map fst cols) =
  flat_map (fun p => repeat (fst p) (len (snd p))) cols.
Proof.
  unfold columns. induction 1 as [|p cols Hp _ [IH1 IH2]]; [split; reflexivity|].
  simpl. rewrite Hp, IH1, IH2. split; reflexivity.
Qed.

Lemma cells_repeat {A : Type} s (l : list A) :
  cells (concat_series (repeat s (List.length l))) =
    flat_map (fun _ => cells s) l.
Proof.
  unfold concat_series. destruct s as [z|f].
  - assert (E : forallb is_int (repeat (SInt z) (List.length l)) = true)
      by (induction l; simpl; auto).
    rewrite E. simpl. induction l as [|a l IH]; [reflexivity|].
    simpl. rewrite map_app. f_equal. apply IH.
    induction l; simpl; auto.
  - destruct l as [|a l]; [reflexivity|]. simpl.
    rewrite map_app. f_equal.
    induction l as [|b l IH]; [reflexivity|].
    simpl. rewrite map_app, IH. reflexivity.
Qed.

Lemma cells_concat l :
  cells (concat_series l) = flat_map (upcast (forallb is_int l)) l.
Proof.
  unfold concat_series, upcast.
  destruct (forallb is_int l); simpl;
    induction l as [|s l IH]; simpl; rewrite ?map_app; congruence.
Qed.

Lemma upcast_length b s :
  (b = true -> is_int s = true) -> List.length (upcast b s) = len s.
Proof.
  destruct b, s; simpl; rewrite ?length_map; auto.
  intros H. discriminate (H eq_refl).
Qed.

Lemma cells_length s : List.length (cells s) = len s.
Proof. destruct s; simpl; apply length_map. Qed.

Lemma flat_map_of_map {A B C : Type} (g : A -> B) (f : B -> list C) l :
  flat_map f (map g l) = flat_map (fun x => f (g x)) l.
Proof.
  induction l as [|a l IH]; simpl; [reflexivity|]. rewrite IH. reflexivity.
Qed.

Lemma keys_gblocks (id : list num) (b : bool) (cols : list (string * Series)) :
  Forall (fun p => len (snd p) = List.length id /\
                   List.length (upcast b (snd p)) = List.length id) cols ->
  combine
    (combine (flat_map (fun _ => id) cols)
       (flat_map (fun p => repeat (fst p) (len (snd p))) cols))
    (flat_map (fun p => upcast b (snd p)) cols) =
  flat_map (fun p => gblock id (fst p) (upcast b (snd p))) cols.
Proof.
  induction 1 as [|[v s] cols [Hl Hu] _ IH]; simpl; [reflexivity|].
  simpl in Hl, Hu. rewrite !combine_app, IH.
  - unfold gblock. rewrite Hu, Hl. reflexivity.
  - rewrite length_combine, repeat_length. lia.
  - rewrite repeat_length. lia.
Qed.

(** The keys of the long table are the blocks of the melted columns, one
    after the other, each cell cast as the value column is. *)
Lemma melted_keys_gblocks df vars m n :
  melt df "cardio" vars = inr m ->
  nrows df n ->
  exists id (cols : list (string * Series)),
    loc df "cardio" = Some id /\
    map fst cols = vars /\
    Forall (fun p => loc df (fst p) = Some (snd p)) cols /\
    melted_keys m =
      flat_map
        (fun p =>
           gblock (cells id) (fst p)
             (upcast (forallb is_int (map snd cols)) (snd p))) cols.
Proof.
  intros Hm Hn.
  apply melt_inr in Hm as (id & Lid & Hv & ->).
  destruct (present_cols df vars Hv) as (cols & <- & Hc).
  exists id, cols. repeat split; try assumption.
  destruct (columns_cols df cols Hc) as [E1 E2].
  unfold melted_keys. cbn [m_id m_variable m_value].
  rewrite E1, E2, length_map, cells_repeat, cells_concat.
  rewrite flat_map_of_map.
  apply keys_gblocks.
  apply Forall_forall. intros p Hp.
  rewrite Forall_forall in Hc.
  rewrite cells_length, (nrows_loc _ _ _ _ Hn Lid).
  assert (Hl : len (snd p) = n) by (eapply nrows_loc; eauto).
  split; [exact Hl|].
  rewrite upcast_length; [exact Hl|].
  intros Hb. rewrite forallb_forall in Hb. apply Hb, in_map, Hp.
Qed.

(** The rows of one variable in the long table. *)
Lemma gblock_variable id v l k : In k (gblock id v l) -> key_variable k = v.
Proof.
  destruct k as [[c v'] x]. unfold gblock. intros H.
  apply in_combine_l, in_combine_r, repeat_spec in H. exact H.
Qed.

Lemma filter_all {A : Type} (f : A -> bool) l :
  (forall x, In x l -> f x = false) -> filter f l = [].
Proof.
  induction l as [|a l IH]; simpl; intros H; [reflexivity|].
  rewrite (H a) by auto. apply IH. auto.
Qed.

Lemma filter_gblock_same id v l :
  filter (has_variable v) (gblock id v l) = gblock id v l.
Proof.
  apply forallb_filter_id, forallb_forall. intros k H.
  unfold has_variable. rewrite (gblock_variable _ _ _ _ H).
  apply String.eqb_refl.
Qed.

Lemma filter_gblock_other id v v' l :
  v' <> v -> filter (has_variable v) (gblock id v' l) = [].
Proof.
  intros Hne. apply filter_all. intros k H.
  unfold has_variable. rewrite (gblock_variable _ _ _ _ H).
  apply String.eqb_neq. exact Hne.
Qed.

Lemma filter_gblocks id (f : string * Series -> list num) cols v s :
  NoDup (map fst cols) -> In (v, s) cols ->
  filter (has_variable v) (flat_map (fun p => gblock id (fst p) (f p)) cols) =
    gblock id v (f (v, s)).
Proof.
  induction cols as [|p cols IH]; simpl; [contradiction|].
  intros Hnd Hin. inversion Hnd as [|? ? Hp Hnd']; subst.
  rewrite filter_app. destruct Hin as [->|Hin].
  - simpl. rewrite filter_gblock_same, filter_all, app_nil_r; [reflexivity|].
    intros k Hk. apply in_flat_map in Hk as (q & Hq & Hk).
    unfold has_variable. rewrite (gblock_variable _ _ _ _ Hk).
    apply String.eqb_neq. intros E. apply Hp. simpl. rewrite <- E.
    apply (in_map fst _ _ Hq).
  - rewrite filter_gblock_other, IH by
      first [assumption
            |intros E; apply Hp; rewrite E;
             apply (in_map fst _ _ Hin)].
    reflexivity.
Qed.

Lemma filter_comm {A : Type} (f g : A -> bool) l :
  filter f (filter g l) = filter g (filter f l).
Proof.
  induction l as [|a l IH]; [reflexivity|]. simpl.
  destruct (f a) eqn:F, (g a) eqn:G; simpl; rewrite ?F, ?G, IH; reflexivity.
Qed.

(** The keys of a block that hold no missing value are the rows where both
    cells are present. *)
Lemma notna_gblock id v l :
  List.length id = List.length l ->
  List.length (filter (fun k => negb (key_isna k)) (gblock id v l)) =
    List.length (filter both_present (combine id l)).
Proof.
  unfold gblock, both_present. revert l.
  induction id as [|a id IH]; intros [|b l]; simpl; try discriminate;
    [reflexivity|].
  intros [= H]. rewrite negb_orb.
  destruct (negb (num_isna a) && negb (num_isna b)); simpl;
    rewrite <- (IH l H); reflexivity.
Qed.

(** The cast to float64 makes no cell missing and no cell present. *)
Lemma both_present_upcast id b s :
  (b = true -> is_int s = true) ->
  List.length (filter both_present (combine id (upcast b s))) =
    List.length (filter both_present (combine id (cells s))).
Proof.
  intros Hb. destruct b, s as [l|l]; try reflexivity;
    [discriminate (Hb eq_refl)|].
  unfold upcast, both_present. simpl. revert id.
  induction l as [|z l IH]; intros [|a id]; simpl; try reflexivity.
  rewrite Z2float_not_nan.
  destruct (negb (num_isna a)); simpl; rewrite IH; reflexivity.
Qed.

Lemma value_vars_NoDup : NoDup value_vars.
Proof.
  unfold value_vars. repeat constructor; simpl; intuition discriminate.
Qed.

Lemma nrows_setitem df n k s :
  nrows df n -> len s = n -> nrows (setitem df k s) n.
Proof.
  unfold nrows. intros H Hs.
  induction H as [|[k' s'] r Hc Hr IH]; simpl.
  - repeat constructor. exact Hs.
  - destruct (String.eqb k' k); constructor; assumption.
Qed.

Lemma derive_cat_nrows raw df n :
  derive_cat raw = inr df -> nrows raw n -> nrows df n.
Proof.
  intros Hd Hn.
  apply derive_cat_columns in Hd as (sw & sh & sc & sg & Lw & Lh & Lc & Lg & ->).
  pose proof (fun k s => nrows_loc raw n k s Hn) as Hlen.
  repeat apply nrows_setitem; try assumption; simpl.
  - rewrite length_map. apply bmi_length; eapply Hlen; eassumption.
  - rewrite length_map, series_gt_length. eapply Hlen; eassumption.
  - rewrite length_map, series_gt_length. eapply Hlen; eassumption.
Qed.

Lemma both_present_all a b :
  forallb (fun x => negb (num_isna x)) a = true ->
  forallb (fun x => negb (num_isna x)) b = true ->
  filter both_present (combine a b) = combine a b.
Proof.
  revert b. induction a as [|x a IH]; intros [|y b]; simpl; try reflexivity.
  intros Ha Hb. apply andb_true_iff in Ha as [Hx Ha], Hb as [Hy Hb].
  unfold both_present at 1. simpl. rewrite Hx, Hy. simpl.
  rewrite IH by assumption. reflexivity.
Qed.

(** The totals of a variable, for any table the melt accepts. *)
Lemma total_of_complete_rows df t n v :
  nrows df n -> cat_counts df = inr t -> In v value_vars ->
  total_of v t = Z.of_nat (complete_rows df v).
Proof.
  intros Hn Hc Hv.
  apply cat_counts_inr in Hc as (m & Hm & ->).
  destruct (melted_keys_gblocks df value_vars m n Hm Hn)
    as (id & cols & Lid & Hf & Hcols & Hk).
  rewrite total_of_groupby, filter_comm, Hk. f_equal.
  rewrite <- Hf in Hv. apply in_map_iff in Hv as ([v' s] & Ev & Hp).
  simpl in Ev. subst v'.
  rewrite (filter_gblocks (cells id)
             (fun p => upcast (forallb is_int (map snd cols)) (snd p))
             cols v s)
    by (try assumption; rewrite Hf; exact value_vars_NoDup).
  rewrite Forall_forall in Hcols. pose proof (Hcols _ Hp) as Ls. simpl in Ls.
  assert (Hb : forallb is_int (map snd cols) = true -> is_int s = true).
  { intros Hb. rewrite forallb_forall in Hb.
    apply Hb, (in_map snd _ _ Hp). }
  simpl snd. rewrite notna_gblock, both_present_upcast by
    first [exact Hb
          |rewrite upcast_length, cells_length by exact Hb;
           rewrite (nrows_loc _ _ _ _ Hn Lid), (nrows_loc _ _ _ _ Hn Ls);
           reflexivity].
  unfold complete_rows. rewrite Lid, Ls. reflexivity.
Qed.

(** C5, as the code has it. After the melt and the group count, the
    totals of the groups of each of the six melted variables add up to the
    number of rows of the source table that hold a value, not NaN, both in
    [cardio] and in that variable: [groupby] drops the rows with a missing
    key. The sum is the number of rows of the table when neither column
    holds a missing value, and never more. *)
Theorem totals_sum_to_complete_rows
  (raw df : DataFrame) (t : list (key * Z)) (n : nat) (v : string) :
  nrows raw n ->
  derive_cat raw = inr df ->
  cat_counts df = inr t ->
  In v value_vars ->
  total_of v t = Z.of_nat (complete_rows df v) /\
  (complete_rows df v <= n)%nat /\
  (no_missing df "cardio" = true -> no_missing df v = true ->
   total_of v t = Z.of_nat n).
Proof.
  intros Hn Hd Hc Hv.
  pose proof (derive_cat_nrows _ _ _ Hd Hn) as Hn'.
  pose proof (total_of_complete_rows df t n v Hn' Hc Hv) as Ht.
  split; [exact Ht|]. unfold complete_rows, no_missing in *.
  destruct (loc df "cardio") as [a|] eqn:La;
    [|split; [lia|discriminate]].
  destruct (loc df v) as [b|] eqn:Lb;
    [|split; [lia|intros _; discriminate]].
  pose proof (nrows_loc _ _ _ _ Hn' La) as Na.
  pose proof (nrows_loc _ _ _ _ Hn' Lb) as Nb.
  assert (Hl : List.length (combine (cells a) (cells b)) = n)
    by (rewrite length_combine, !cells_length; lia).
  split.
  - rewrite <- Hl. apply filter_length_le.
  - intros Ha Hb. rewrite Ht, both_present_all, Hl by assumption.
    reflexivity.
Qed.

(** C5 fails as stated: with one smoking flag missing among four
    examinations, the totals of [smoke] add up to 3, not to the 4 rows of
    the table. *)
Lemma totals_lose_missing_rows :
  nrows sample_missing 4 /\
  exists df t,
    derive_cat sample_missing = inr df /\
    cat_counts df = inr t /\
    In "smoke" value_vars /\
    total_of "smoke" t = 3 /\
    total_of "smoke" t <> Z.of_nat 4.
Proof.
  split; [unfold nrows, sample_missing; repeat constructor|].
  eexists. eexists.
  split; [vm_compute; reflexivity|].
  split; [vm_compute; reflexivity|].
  split; [simpl; auto|].
  split; [vm_compute; reflexivity|vm_compute; discriminate].
Qed.

Lemma sample_nrows : nrows sample 4.
Proof. unfold nrows, sample. repeat constructor. Qed.

Lemma totals_sum_to_complete_rows_witness :
  total_of "smoke" sample_counts =
    Z.of_nat (complete_rows sample_derived "smoke") /\
  (complete_rows sample_derived "smoke" <= 4)%nat /\
  (no_missing sample_derived "cardio" = true ->
   no_missing sample_derived "smoke" = true ->
   total_of "smoke" sample_counts = Z.of_nat 4).
Proof.
  apply (totals_sum_to_complete_rows sample sample_derived sample_counts 4
           "smoke").
  - exact sample_nrows.
  - vm_compute. reflexivity.
  - vm_compute. reflexivity.
  - simpl. auto.
Defined.

Lemma group_size_pos ks k :
  In k ks -> key_eqb k k = true -> (1 <= group_size ks k)%nat.
Proof.
  intros Hin Hr. unfold group_size.
  assert (Hf : In k (filter (key_eqb k) ks)) by (apply filter_In; auto).
  destruct (filter (key_eqb k) ks); [contradiction|simpl; lia].
Qed.

(** Every row of the counted table of an integer-coded table is a group
    that occurs among the keys of the long table, with its size, which is
    at least one. *)
Lemma groupby_count_rows m k total :
  Forall int_key (melted_keys m) ->
  In (k, total) (groupby_count m) ->
  In k (melted_keys m) /\ 1 <= total.
Proof.
  intros Hint H. rewrite (groupby_count_int m Hint) in H.
  apply in_map_iff in H as (k' & [= -> <-] & Hin).
  apply (Permutation_in _ (sort_keys_perm _)), unique_incl in Hin.
  split; [exact Hin|].
  rewrite Forall_forall in Hint.
  pose proof (group_size_pos _ _ Hin
                (key_eqb_refl _ (int_key_notna _ (Hint _ Hin)))). lia.
Qed.



(** *** The correlation matrix and the mask *)

Lemma nth_error_map_seq {A : Type} (f : nat -> A) n i :
  nth_error (map f (seq 0 n)) i = if (i <? n)%nat then Some (f i) else None.
Proof.
  rewrite nth_error_map.
  destruct (Nat.ltb_spec i n) as [Hlt|Hge].
  - rewrite nth_error_nth' with (d := 0%nat) by (rewrite length_seq; exact Hlt).
    rewrite seq_nth by exact Hlt. reflexivity.
  - rewrite (proj2 (nth_error_None _ _)) by (rewrite length_seq; exact Hge).
    reflexivity.
Qed.

Lemma entry_corr df i j :
  entry (corr df) i j =
    if (i <? List.length df)%nat && (j <? List.length df)%nat
    then Some (corr_entry (map (fun c => values_float (snd c)) df) i j)
    else None.
Proof.
  unfold entry, corr. rewrite length_map, nth_error_map_seq.
  destruct (i <? List.length df)%nat; [|reflexivity].
  rewrite nth_error_map_seq. reflexivity.
Qed.

Lemma corr_entry_sym cols i j : corr_entry cols i j = corr_entry cols j i.
Proof.
  unfold corr_entry. rewrite (Nat.max_comm i j), (Nat.min_comm i j).
  reflexivity.
Qed.

(** Paired with itself, a column keeps one mean and one sum: the two sums
    of squares and the co-moment are the same value all along, and that
    value is still zero as long as no row has been counted. *)
Lemma column_sums_same x st :
  meany st = meanx st -> ssqdm_y st = ssqdm_x st -> covxy st = ssqdm_x st ->
  0 <= nobs st -> (nobs st = 0 -> ssqdm_x st = 0%float) ->
  let st' := fold_left welford_step (combine x x) st in
  ssqdm_y st' = ssqdm_x st' /\ covxy st' = ssqdm_x st' /\
  0 <= nobs st' /\ (nobs st' = 0 -> ssqdm_x st' = 0%float).
Proof.
  revert st. induction x as [|v x IH]; intros st H1 H2 H3 H4 H5; simpl.
  - auto.
  - apply IH; unfold welford_step; rewrite andb_diag;
      destruct (is_finite v); simpl; try assumption;
      rewrite ?H1, ?H2, ?H3; try reflexivity; lia.
Qed.

Lemma column_sums_spec x :
  ssqdm_y (column_sums x) = ssqdm_x (column_sums x) /\
  covxy (column_sums x) = ssqdm_x (column_sums x) /\
  0 <= nobs (column_sums x) /\
  (nobs (column_sums x) = 0 -> ssqdm_x (column_sums x) = 0%float).
Proof.
  apply (column_sums_same x welford_init); simpl; auto; lia.
Qed.

(** A diagonal entry is the coefficient of a column paired with itself. *)
Lemma corr_diagonal df i name col :
  nth_error df i = Some (name, col) ->
  entry (corr df) i i = Some (coefficient (column_sums (values_float col))).
Proof.
  intros H. rewrite entry_corr, andb_diag.
  assert (Hlt : (i < List.length df)%nat)
    by (apply nth_error_Some; congruence).
  rewrite (proj2 (Nat.ltb_lt _ _) Hlt).
  unfold corr_entry. rewrite Nat.max_id, Nat.min_id.
  assert (E : nth i (map (fun c => values_float (snd c)) df) [] =
              values_float col).
  { pose proof (map_nth (fun c => values_float (snd c)) df
                  (""%string, SInt []) i) as E.
    simpl in E. rewrite E, (nth_error_nth _ _ _ H). reflexivity. }
  rewrite E. reflexivity.
Qed.

(** C6, as the code has it. The correlation matrix is symmetric: entries
    (i, j) and (j, i) are the same value, NaN included. With s the sum of
    squared deviations of column i from its mean, as the code accumulates
    it, the diagonal entry (i, i) is exactly 1.0 when s is finite, not
    zero, and [sqrt (s * s)] gives back s, that is, when squaring s
    neither overflows nor underflows; it is NaN when s is zero, as for a
    constant column and for every column of a one-row table. *)
Theorem corr_symmetric_and_diagonal
  (df : DataFrame) (i j : nat) (name : string) (col : Series) :
  entry (corr df) i j = entry (corr df) j i /\
  (nth_error df i = Some (name, col) ->
   let s := ssqdm_x (column_sums (values_float col)) in
   (is_finite s = true -> (s =? 0)%float = false -> sqrt (s * s) = s ->
    entry (corr df) i i = Some 1%float) /\
   ((s =? 0)%float = true -> entry (corr df) i i = Some nan)).
Proof.
  split.
  - rewrite !entry_corr, (corr_entry_sym _ i j), andb_comm. reflexivity.
  - intros H. rewrite (corr_diagonal _ _ _ _ H). cbv zeta.
    destruct (column_sums_spec (values_float col)) as (Ey & Ec & Hn & Hz).
    unfold coefficient. rewrite Ey, Ec.
    set (s := ssqdm_x (column_sums (values_float col))) in *.
    split.
    + intros Hf Hs Hq.
      destruct (Z.ltb_spec (nobs (column_sums (values_float col))) 1)
        as [Hlt|_].
      * rewrite Hz in Hs by lia. discriminate Hs.
      * rewrite Hq, Hs, (div_self s Hf Hs). reflexivity.
    + intros Hs. rewrite (sqrt_sq_zero s Hs).
      destruct (nobs (column_sums (values_float col)) <? 1); reflexivity.
Qed.

Lemma paired_kept :
  derive_heat paired = inr paired_derived /\
  heat_filter paired_derived = inr paired_derived.
Proof. split; vm_compute; reflexivity. Qed.

Lemma corr_symmetric_and_diagonal_witness :
  entry (corr paired_derived) 3 3 = Some 1%float.
Proof.
  apply (proj1 (proj2 (corr_symmetric_and_diagonal paired_derived 3 3
                         "height" (SInt [160; 160; 170; 170]))
                  eq_refl));
    vm_compute; reflexivity.
Defined.

(** C6 fails as stated: the filter keeps one row of [sample], and every
    diagonal entry of the correlation matrix of that one-row table is NaN,
    which is not 1.0. *)
Lemma diagonal_nan_on_single_row :
  heat_filter sample_derived = inr sample_kept /\
  nrows sample_kept 1 /\
  forall i, (i < List.length sample_kept)%nat ->
    exists x, entry (corr sample_kept) i i = Some x /\
              is_nan x = true /\ (x =? 1)%float = false.
Proof.
  split; [vm_compute; reflexivity|].
  split; [unfold nrows, sample_kept; repeat constructor|].
  intros i Hi. exists nan.
  do 14 (destruct i as [|i]; [vm_compute; auto|]).
  simpl in Hi. lia.
Qed.

(** Nor is a diagonal entry 1.0 for every column that varies: when the
    square of the sum of squared deviations exceeds the binary64 range,
    the divisor is infinite and the entry is 0. The filter keeps both rows
    of [far_apart], and the entry of its first column is 0. *)
Remark diagonal_zero_on_overflow :
  match heat_tables far_apart with
  | inr (_, df_heat, c, _) =>
      nrows df_heat 2 /\
      nth_error (map fst df_heat) 0 = Some "age" /\
      entry c 0 0 = Some 0%float
  | inl _ => False
  end.
Proof. vm_compute. repeat split; repeat constructor. Qed.

Lemma nth_error_combine_seq {A : Type} (l : list A) s i x :
  nth_error l i = Some x ->
  nth_error (combine (seq s (List.length l)) l) i = Some ((s + i)%nat, x).
Proof.
  revert s i. induction l as [|a l IH]; intros s [|i]; simpl; try discriminate.
  - intros [= ->]. rewrite Nat.add_0_r. reflexivity.
  - intros H. rewrite (IH (S s) i H). f_equal. f_equal. lia.
Qed.

Lemma nth_error_enumerate {A : Type} (l : list A) i x :
  nth_error l i = Some x -> nth_error (enumerate l) i = Some (i, x).
Proof. apply (nth_error_combine_seq l 0). Qed.

(** What [np.triu] leaves in a cell, and when the heat map hides it: on or
    above the diagonal the value itself, hidden unless it is zero; below
    the diagonal zero, which hides nothing. A cell whose correlation is NaN
    is hidden wherever it lies. *)
Lemma np_triu_entry (m : Matrix) i j x :
  entry m i j = Some x ->
  entry (np_triu m) i j = Some (if (i <=? j)%nat then x else 0%float) /\
  masked m (np_triu m) i j =
    (i <=? j)%nat && negb (x =? 0)%float || is_nan x.
Proof.
  intros H.
  assert (E : entry (np_triu m) i j =
              Some (if (i <=? j)%nat then x else 0%float)).
  { unfold entry, np_triu in *.
    destruct (nth_error m i) as [r|] eqn:Er; [|discriminate].
    rewrite nth_error_map, (nth_error_enumerate _ _ _ Er). simpl.
    rewrite nth_error_map, (nth_error_enumerate _ _ _ H). reflexivity. }
  split; [exact E|].
  unfold masked. rewrite H, E.
  destruct (i <=? j)%nat; reflexivity.
Qed.

(** C4, at a table the script can load. The filter keeps the four rows of
    [paired]; the columns [smoke] and [alco] (columns 9 and 10) have
    correlation exactly 0, so the mask [np.triu(corr)] holds 0 in cell
    (9, 10): the cell lies above the diagonal and the heat map does not
    hide it. *)
Theorem mask_misses_zero_correlation :
  match heat_tables paired with
  | inr (_, df_heat, c, mask) =>
      nrows df_heat 4 /\
      nth_error (map fst df_heat) 9 = Some "smoke" /\
      nth_error (map fst df_heat) 10 = Some "alco" /\
      entry c 9 10 = Some 0%float /\
      entry mask 9 10 = Some 0%float /\
      (9 <=? 10)%nat = true /\
      masked c mask 9 10 = false
  | inl _ => False
  end.
Proof. vm_compute. repeat split; repeat constructor. Qed.

(** On [paired] no column is constant, and every diagonal entry of the
    correlation matrix is 1.0. *)
Remark paired_diagonal_one :
  match heat_tables paired with
  | inr (_, _, c, _) =>
      map (fun i => entry c i i) (seq 0 14) = repeat (Some 1%float) 14
  | inl _ => False
  end.
Proof. vm_compute. reflexivity. Qed.

(** *** Failures of the two functions *)

Lemma ge_quantile_present df k q s :
  loc df k = Some s -> ge_quantile df k q = inr (ge_scalar s (quantile s q)).
Proof. intros H. unfold ge_quantile, getitem. rewrite H. reflexivity. Qed.

Lemma le_quantile_present df k q s :
  loc df k = Some s -> le_quantile df k q = inr (le_scalar s (quantile s q)).
Proof. intros H. unfold le_quantile, getitem. rewrite H. reflexivity. Qed.

(** The table work of the heat map fails for a missing column and for
    nothing else: whatever the rows, and whether or not any row passes the
    filter, a table with the six columns gets its filtered table, its
    correlation matrix and its mask. *)
Lemma heat_tables_outcome (raw : DataFrame) :
  match first_missing raw
          ["weight"; "height"; "cholesterol"; "gluc"; "ap_lo"; "ap_hi"] with
  | Some k => heat_tables raw = inl (KeyError [k])
  | None =>
      exists df df_heat,
        heat_tables raw =
          inr (df, df_heat, corr df_heat, np_triu (corr df_heat))
  end.
Proof.
  unfold heat_tables. rewrite derive_heat_unfold.
  unfold first_missing, getitem.
  destruct (loc raw "weight") as [sw|] eqn:Lw; [|reflexivity].
  destruct (loc raw "height") as [sh|] eqn:Lh; [|reflexivity].
  simpl. rewrite loc_setitem_ne by discriminate.
  destruct (loc raw "cholesterol") as [sc|]; [|reflexivity].
  simpl. rewrite !loc_setitem_ne by discriminate.
  destruct (loc raw "gluc") as [sg|]; [|reflexivity].
  simpl. unfold heat_filter, getitem. rewrite !loc_setitem_ne by discriminate.
  destruct (loc raw "ap_lo") as [slo|]; [|reflexivity].
  destruct (loc raw "ap_hi") as [shi|]; [|reflexivity].
  simpl.
  rewrite (ge_quantile_present _ "height" _ sh),
    (le_quantile_present _ "height" _ sh),
    (ge_quantile_present _ "weight" _ sw),
    (le_quantile_present _ "weight" _ sw)
    by (rewrite !loc_setitem_ne by discriminate; assumption).
  simpl. eauto.
Qed.

Lemma heat_tables_inr raw df df_heat c mask :
  heat_tables raw = inr (df, df_heat, c, mask) ->
  derive_heat raw = inr df /\ heat_filter df = inr df_heat.
Proof.
  unfold heat_tables.
  destruct (derive_heat raw) as [e|df1]; [discriminate|]. simpl.
  destruct (heat_filter df1) as [e|df2] eqn:F; [discriminate|]. simpl.
  intros [= <- <- _ _]. auto.
Qed.

Section PipelineProperties.

Variables Figure FacetGrid : Type.
Variable parse_csv : string -> Exc DataFrame.
Variable sns_catplot : catplot_args -> list (key * Z) -> Exc FacetGrid.
Variable grid_fig : FacetGrid -> Exc Figure.
Variable plt_subplots : Z * Z -> Exc Figure.
Variable sns_heatmap : heatmap_args -> Matrix -> Matrix -> Figure -> Exc Figure.
Variable print_png : Figure -> Exc string.

Local Abbreviation load := (read_csv parse_csv dataset).
Local Abbreviation cat_plot :=
  (draw_cat_plot Figure FacetGrid parse_csv sns_catplot grid_fig print_png).
Local Abbreviation heat_map :=
  (draw_heat_map Figure parse_csv plt_subplots sns_heatmap print_png).
Local Abbreviation cat_failure :=
  (cat_fails Figure FacetGrid parse_csv sns_catplot grid_fig).
Local Abbreviation heat_failure :=
  (heat_fails Figure parse_csv plt_subplots sns_heatmap).

Lemma load_files fs : snd (load fs) = fs.
Proof. unfold read_csv. destruct (fs dataset); reflexivity. Qed.

Lemma load_inl fs e : fst (load fs) = inl e -> load fs = (inl e, fs).
Proof.
  intros H. rewrite (surjective_pairing (load fs)), H, load_files.
  reflexivity.
Qed.

Lemma load_inr fs df : fst (load fs) = inr df -> load fs = (inr df, fs).
Proof.
  intros H. rewrite (surjective_pairing (load fs)), H, load_files.
  reflexivity.
Qed.


End PipelineProperties.



(** * Further properties of the two functions *)

(** *** The column derivation *)

Lemma names_setitem df k s :
  map fst (setitem df k s) =
    if absent df k then map fst df ++ [k] else map fst df.
Proof.
  unfold absent. induction df as [|[k' s'] r IH]; simpl; [reflexivity|].
  destruct (String.eqb k' k); simpl; [reflexivity|].
  rewrite IH. destruct (loc r k); reflexivity.
Qed.

Lemma names_setitem_present df k s s' :
  loc df k = Some s' -> map fst (setitem df k s) = map fst df.
Proof.
  intros H. rewrite names_setitem. unfold absent. rewrite H. reflexivity.
Qed.

(** X1. On a table whose columns are all numeric (int64 or float64, the
    tables a [DataFrame] stands for), the derivation raises exactly when
    one of the columns weight, height, cholesterol, gluc is missing, and
    then the [KeyError] names the first missing one in that order;
    otherwise it returns a table. Both functions behave so. *)
Theorem derive_missing_column (df : DataFrame) :
  match first_missing df ["weight"; "height"; "cholesterol"; "gluc"] with
  | Some k =>
      derive_cat df = inl (KeyError [k]) /\
      derive_heat df = inl (KeyError [k])
  | None =>
      exists df', derive_cat df = inr df' /\ derive_heat df = inr df'
  end.
Proof.
  assert (H : derive_heat df = derive_cat df)
    by (rewrite derive_heat_unfold; reflexivity).
  rewrite H. clear H. unfold first_missing, derive_cat, getitem.
  destruct (loc df "weight") as [sw|]; [|split; reflexivity].
  destruct (loc df "height") as [sh|]; [|split; reflexivity].
  simpl. rewrite loc_setitem_ne by discriminate.
  destruct (loc df "cholesterol") as [sc|]; [|split; reflexivity].
  simpl. rewrite !loc_setitem_ne by discriminate.
  destruct (loc df "gluc") as [sg|]; [|split; reflexivity].
  simpl. eauto.
Qed.

(** X2. The derivation keeps the table around the three columns it
    writes: every other column is unchanged, the column names keep their
    order with [overweight] added last when it is new, and the number of
    rows is the same. *)
Theorem derive_keeps_table (df df' : DataFrame) :
  derive_cat df = inr df' ->
  (forall k, k <> "overweight" -> k <> "cholesterol" -> k <> "gluc" ->
     loc df' k = loc df k) /\
  map fst df' =
    (if absent df "overweight" then map fst df ++ ["overweight"]
     else map fst df) /\
  (forall n, nrows df n -> nrows df' n).
Proof.
  intros Hd.
  apply derive_cat_columns in Hd as (sw & sh & sc & sg & Lw & Lh & Lc & Lg & ->).
  split; [|split].
  - intros k Ho Hc Hg. rewrite !loc_setitem_ne by congruence. reflexivity.
  - rewrite (names_setitem_present _ _ _ sg)
      by (rewrite !loc_setitem_ne by discriminate; exact Lg).
    rewrite (names_setitem_present _ _ _ sc)
      by (rewrite loc_setitem_ne by discriminate; exact Lc).
    apply names_setitem.
  - intros n Hn.
    pose proof (fun k s => nrows_loc df n k s Hn) as Hlen.
    repeat apply nrows_setitem; try assumption; simpl.
    + rewrite length_map. apply bmi_length; eapply Hlen; eassumption.
    + rewrite length_map, series_gt_length. eapply Hlen; eassumption.
    + rewrite length_map, series_gt_length. eapply Hlen; eassumption.
Qed.

Lemma derive_keeps_table_witness :
  loc sample_derived "ap_hi" = loc sample "ap_hi" /\
  map fst sample_derived = map fst sample ++ ["overweight"] /\
  nrows sample_derived 4.
Proof.
  destruct (derive_keeps_table sample sample_derived) as (Hk & Hn & Hr).
  - vm_compute. reflexivity.
  - split; [apply Hk; discriminate|].
    split; [exact Hn|apply Hr, sample_nrows].
Defined.

Lemma iloc_astype_int m i x :
  iloc (astype_int m) i = Some x -> x = NInt 0 \/ x = NInt 1.
Proof.
  unfold astype_int, iloc. rewrite nth_error_map.
  destruct (nth_error m i) as [[|]|]; simpl; try discriminate;
    intros [= <-]; auto.
Qed.

(** X3. The three derived columns are binary: every cell of overweight,
    cholesterol and gluc in the derived table is the integer 0 or 1. *)
Theorem derived_cells_binary
  (df df' : DataFrame) (k : string) (i : nat) (x : num) :
  derive_cat df = inr df' ->
  In k ["overweight"; "cholesterol"; "gluc"] ->
  cell df' k i = Some x ->
  x = NInt 0 \/ x = NInt 1.
Proof.
  intros Hd Hk Hx.
  apply derive_cat_columns in Hd as (sw & sh & sc & sg & _ & _ & _ & _ & ->).
  unfold cell in Hx. simpl in Hk.
  destruct Hk as [<-|[<-|[<-|[]]]];
    rewrite ?loc_setitem_eq, ?loc_setitem_ne in Hx by discriminate;
    rewrite ?loc_setitem_eq, ?loc_setitem_ne in Hx by discriminate;
    eapply iloc_astype_int; eassumption.
Qed.

Lemma derived_cells_binary_witness : NInt 1 = NInt 0 \/ NInt 1 = NInt 1.
Proof.
  apply (derived_cells_binary sample sample_derived "gluc" 2%nat (NInt 1)).
  - vm_compute. reflexivity.
  - simpl. auto.
  - reflexivity.
Defined.

Lemma cell_series_gt_binary m c i x :
  iloc (astype_int m) i = Some x ->
  iloc (astype_int (series_gt (astype_int m) c)) i =
    Some (NInt (bool_int (num_gt x c))).
Proof. apply iloc_series_gt. Qed.

(** X4. The derivation is not idempotent. Applied to a table it has
    already derived, it succeeds, recomputes the same overweight column,
    and sets every cholesterol and gluc cell to 0, because the binarized
    values 0 and 1 are never greater than 1. *)
Theorem derive_twice (df df1 : DataFrame) :
  derive_cat df = inr df1 ->
  exists df2,
    derive_cat df1 = inr df2 /\
    loc df2 "overweight" = loc df1 "overweight" /\
    map fst df2 = map fst df1 /\
    forall k i x,
      In k ["cholesterol"; "gluc"] ->
      cell df1 k i = Some x -> cell df2 k i = Some (NInt 0).
Proof.
  intros Hd.
  pose proof (derive_cat_columns _ _ Hd)
    as (sw & sh & sc & sg & Lw & Lh & Lc & Lg & E).
  assert (Lw1 : loc df1 "weight" = Some sw)
    by (rewrite E, !loc_setitem_ne by discriminate; exact Lw).
  assert (Lh1 : loc df1 "height" = Some sh)
    by (rewrite E, !loc_setitem_ne by discriminate; exact Lh).
  assert (Lc1 : loc df1 "cholesterol" = Some (astype_int (series_gt sc 1)))
    by (rewrite E, loc_setitem_ne, loc_setitem_eq by discriminate; reflexivity).
  assert (Lg1 : loc df1 "gluc" = Some (astype_int (series_gt sg 1)))
    by (rewrite E, loc_setitem_eq; reflexivity).
  assert (Lo1 : loc df1 "overweight" =
                Some (astype_int
                        (gt_scalar (truediv sw (pow2 (truediv_scalar sh 100)))
                           25)))
    by (rewrite E, !loc_setitem_ne, loc_setitem_eq by discriminate;
        reflexivity).
  destruct (derive_cat_total df1 _ _ _ _ Lw1 Lh1 Lc1 Lg1) as [df2 Hd2].
  exists df2. split; [exact Hd2|].
  pose proof (derive_cat_columns _ _ Hd2)
    as (sw' & sh' & sc' & sg' & Lw' & Lh' & Lc' & Lg' & E2).
  rewrite Lw1 in Lw'. rewrite Lh1 in Lh'. rewrite Lc1 in Lc'. rewrite Lg1 in Lg'.
  injection Lw' as <-. injection Lh' as <-.
  injection Lc' as <-. injection Lg' as <-.
  split; [|split].
  - rewrite E2, !loc_setitem_ne, loc_setitem_eq by discriminate.
    symmetry. exact Lo1.
  - rewrite E2.
    rewrite (names_setitem_present _ _ _ (astype_int (series_gt sg 1)))
      by (rewrite !loc_setitem_ne by discriminate; exact Lg1).
    rewrite (names_setitem_present _ _ _ (astype_int (series_gt sc 1)))
      by (rewrite loc_setitem_ne by discriminate; exact Lc1).
    eapply names_setitem_present. exact Lo1.
  - intros k i x Hk Hx. unfold cell in *. simpl in Hk.
    destruct Hk as [<-|[<-|[]]].
    + rewrite Lc1 in Hx. rewrite E2, loc_setitem_ne, loc_setitem_eq by discriminate.
      rewrite (cell_series_gt_binary _ 1 _ _ Hx).
      apply iloc_astype_int in Hx as [-> | ->]; reflexivity.
    + rewrite Lg1 in Hx. rewrite E2, loc_setitem_eq.
      rewrite (cell_series_gt_binary _ 1 _ _ Hx).
      apply iloc_astype_int in Hx as [-> | ->]; reflexivity.
Qed.

Lemma derive_twice_witness :
  exists df2,
    derive_cat sample_derived = inr df2 /\
    loc df2 "overweight" = loc sample_derived "overweight" /\
    map fst df2 = map fst sample_derived /\
    forall k i x,
      In k ["cholesterol"; "gluc"] ->
      cell sample_derived k i = Some x -> cell df2 k i = Some (NInt 0).
Proof.
  apply (derive_twice sample sample_derived). vm_compute. reflexivity.
Defined.

(** *** Zero heights and missing measurements *)

(** With a zero height the quotient is infinite, NaN or minus infinity,
    and exceeds 25 exactly when the weight is positive. *)
Lemma bmi_zero_height w h :
  (h =? 0)%float = true ->
  (25 <? w / ((h / 100) * (h / 100)))%float = (0 <? w)%float.
Proof.
  intros Hh. apply eqb_zero_spec in Hh as [s Hs].
  rewrite !FloatAxioms.ltb_spec, FloatAxioms.div_spec, FloatAxioms.mul_spec,
    FloatAxioms.div_spec, Hs.
  float_consts.
  unfold SF64div, SF64mul, SFltb.
  destruct (Prim2SF w) as [sw|sw| |sw mw ew]; destruct s; try destruct sw;
    reflexivity.
Qed.

Lemma bmi_nan w h :
  is_nan w = true \/ is_nan h = true ->
  (25 <? w / ((h / 100) * (h / 100)))%float = false.
Proof.
  intros H.
  rewrite FloatAxioms.ltb_spec, FloatAxioms.div_spec, FloatAxioms.mul_spec,
    FloatAxioms.div_spec.
  float_consts.
  unfold SF64div, SF64mul, SFltb.
  destruct H as [H|H]; apply is_nan_spec in H; rewrite H.
  - reflexivity.
  - simpl. destruct (Prim2SF w); reflexivity.
Qed.

Lemma gt_nan c f : is_nan f = true -> (Z2float c <? f)%float = false.
Proof.
  intros H. apply is_nan_spec in H. rewrite FloatAxioms.ltb_spec, H. unfold SFltb.
  destruct (Prim2SF (Z2float c)); reflexivity.
Qed.

(** The overweight cell of a row, as the derived table holds it. *)
Lemma overweight_cell df df' i w h :
  derive_cat df = inr df' ->
  cell df "weight" i = Some w -> cell df "height" i = Some h ->
  cell df' "overweight" i =
    Some (NInt (bool_int
                  (25 <? num_float w /
                     ((num_float h / 100) * (num_float h / 100)))%float)).
Proof.
  intros Hd Hw Hh.
  apply derive_cat_columns in Hd as (sw & sh & sc & sg & Lw & Lh & _ & _ & ->).
  apply cell_loc in Hw as (sw' & Lw' & Iw), Hh as (sh' & Lh' & Ih).
  rewrite Lw in Lw'. rewrite Lh in Lh'. injection Lw' as <-. injection Lh' as <-.
  unfold cell. rewrite !loc_setitem_ne, loc_setitem_eq by discriminate.
  unfold astype_int, iloc, gt_scalar.
  rewrite !nth_error_map, (nth_error_bmi _ _ _ _ _ _ Iw Ih). simpl.
  rewrite Z2float_25, Z2float_100. reflexivity.
Qed.

(** X5. Division by zero does not raise: a row whose height is 0 is
    flagged overweight exactly when its weight is positive (the quotient is
    then infinite); with weight 0, a negative weight or a missing weight it
    gets 0. *)
Theorem overweight_zero_height (df df' : DataFrame) (i : nat) (w h : num) :
  derive_cat df = inr df' ->
  cell df "weight" i = Some w ->
  cell df "height" i = Some h ->
  (num_float h =? 0)%float = true ->
  cell df' "overweight" i =
    Some (NInt (if (0 <? num_float w)%float then 1 else 0)).
Proof.
  intros Hd Hw Hh Hz.
  rewrite (overweight_cell _ _ _ _ _ Hd Hw Hh), (bmi_zero_height _ _ Hz).
  reflexivity.
Qed.

Lemma overweight_zero_height_witness :
  cell [("height", SInt [0]); ("weight", SFloat [70%float]);
        ("cholesterol", SInt [0]); ("gluc", SInt [0]);
        ("overweight", SInt [1])] "overweight" 0 = Some (NInt 1).
Proof.
  apply (overweight_zero_height
           [("height", SInt [0]); ("weight", SFloat [70%float]);
            ("cholesterol", SInt [1]); ("gluc", SInt [1])]
           _ 0%nat (NFlt 70) (NInt 0)); vm_compute; reflexivity.
Defined.

(** X6. Missing measurements are never flagged: a row whose weight or
    height is NaN gets overweight 0, and a NaN cholesterol or gluc value
    is binarized to 0. *)
Theorem missing_values_give_zero (df df' : DataFrame) (i : nat) :
  derive_cat df = inr df' ->
  (forall w h,
     cell df "weight" i = Some w -> cell df "height" i = Some h ->
     num_isna w = true \/ num_isna h = true ->
     cell df' "overweight" i = Some (NInt 0)) /\
  (forall k c,
     In k ["cholesterol"; "gluc"] ->
     cell df k i = Some c -> num_isna c = true ->
     cell df' k i = Some (NInt 0)).
Proof.
  intros Hd. split.
  - intros w h Hw Hh Hna.
    rewrite (overweight_cell _ _ _ _ _ Hd Hw Hh), bmi_nan; [reflexivity|].
    destruct Hna as [Hna|Hna]; [left; destruct w|right; destruct h];
      simpl in *; congruence.
  - intros k c Hk Hc Hna.
    apply derive_cat_columns in Hd as (sw & sh & sc & sg & _ & _ & Lc & Lg & ->).
    apply cell_loc in Hc as (s & Ls & Is).
    assert (Hv : num_gt c 1 = false).
    { destruct c as [z|f]; simpl in *; [discriminate|]. apply gt_nan, Hna. }
    unfold cell. simpl in Hk. destruct Hk as [<-|[<-|[]]].
    + rewrite Lc in Ls. injection Ls as <-.
      rewrite loc_setitem_ne, loc_setitem_eq by discriminate.
      rewrite (iloc_series_gt _ _ _ _ Is), Hv. reflexivity.
    + rewrite Lg in Ls. injection Ls as <-.
      rewrite loc_setitem_eq.
      rewrite (iloc_series_gt _ _ _ _ Is), Hv. reflexivity.
Qed.

Lemma missing_values_give_zero_witness :
  cell [("height", SInt [170]); ("weight", SFloat [nan]);
        ("cholesterol", SInt [0]); ("gluc", SInt [0]);
        ("overweight", SInt [0])] "overweight" 0 = Some (NInt 0).
Proof.
  apply (proj1 (missing_values_give_zero
                  [("height", SInt [170]); ("weight", SFloat [nan]);
                   ("cholesterol", SFloat [nan]); ("gluc", SInt [1])]
                  _ 0%nat ltac:(vm_compute; reflexivity))
           (NFlt nan) (NInt 170));
    [reflexivity|reflexivity|left; reflexivity].
Defined.

(** *** The row filter, row by row *)

Lemma heat_filter_mask df :
  heat_filter df = (m <- heat_mask df ;; ret (boolean_index df m)).
Proof.
  unfold heat_filter, heat_mask.
  destruct (getitem df "ap_lo"); simpl; [reflexivity|].
  destruct (getitem df "ap_hi"); simpl; [reflexivity|].
  destruct (ge_quantile df "height" 0.025); simpl; [reflexivity|].
  destruct (le_quantile df "height" 0.975); simpl; [reflexivity|].
  destruct (ge_quantile df "weight" 0.025); simpl; [reflexivity|].
  destruct (le_quantile df "weight" 0.975); reflexivity.
Qed.

Lemma heat_filter_inr df df_heat :
  heat_filter df = inr df_heat ->
  exists m, heat_mask df = inr m /\ df_heat = boolean_index df m.
Proof.
  rewrite heat_filter_mask. destruct (heat_mask df) as [e|m]; simpl;
    [discriminate|].
  intros [= <-]. eauto.
Qed.

Lemma series_le_nth a b i x y :
  iloc a i = Some x -> iloc b i = Some y ->
  nth_error (series_le a b) i = Some (num_le x y).
Proof.
  intros Ia Ib.
  assert (Hf : nth_error (map2 PrimFloat.leb (values_float a) (values_float b)) i
               = Some (num_float x <=? num_float y)%float).
  { apply nth_error_map2; apply nth_error_values_float; assumption. }
  destruct a as [la|la], b as [lb|lb].
  - apply iloc_int in Ia as Hx. apply iloc_int in Ib as Hy.
    destruct Hx as [zx ->], Hy as [zy ->]. simpl in *.
    apply nth_error_map2.
    + destruct (nth_error la i); simpl in Ia; congruence.
    + destruct (nth_error lb i); simpl in Ib; congruence.
  - apply iloc_float in Ib as Hy. destruct Hy as [f ->].
    destruct x; exact Hf.
  - apply iloc_float in Ia as Hx. destruct Hx as [f ->]. exact Hf.
  - apply iloc_float in Ia as Hx. destruct Hx as [f ->]. exact Hf.
Qed.

(** X7. The filter's mask, row by row: the mask is true at a row exactly
    when [ap_lo <= ap_hi] and the height and the weight of the row lie
    between the 2.5th and 97.5th percentiles of their columns. A row
    failing any one of the five tests, or holding NaN in one of them, has
    mask false. *)
Theorem heat_mask_rowwise
  (df : DataFrame) (m : list bool) (heights weights : Series)
  (i : nat) (lo hi h w : num) :
  heat_mask df = inr m ->
  loc df "height" = Some heights ->
  loc df "weight" = Some weights ->
  cell df "ap_lo" i = Some lo ->
  cell df "ap_hi" i = Some hi ->
  cell df "height" i = Some h ->
  cell df "weight" i = Some w ->
  nth_error m i =
    Some (num_le lo hi &&
          (quantile heights 0.025 <=? num_float h)%float &&
          (num_float h <=? quantile heights 0.975)%float &&
          (quantile weights 0.025 <=? num_float w)%float &&
          (num_float w <=? quantile weights 0.975)%float).
Proof.
  intros Hm Lh Lw Clo Chi Ch Cw. unfold heat_mask in Hm. exc_steps Hm.
  injection Hm as <-. apply getitem_inr in E, E0.
  apply ge_quantile_inr in E1 as (sh & Lh1 & ->).
  apply le_quantile_inr in E2 as (sh' & Lh2 & ->).
  apply ge_quantile_inr in E3 as (sw & Lw1 & ->).
  apply le_quantile_inr in E4 as (sw' & Lw2 & ->).
  rewrite Lh in Lh1, Lh2. rewrite Lw in Lw1, Lw2.
  injection Lh1 as <-. injection Lh2 as <-.
  injection Lw1 as <-. injection Lw2 as <-.
  unfold cell in *. rewrite E in Clo. rewrite E0 in Chi.
  rewrite Lh in Ch. rewrite Lw in Cw.
  unfold mask_and, ge_scalar, le_scalar.
  repeat apply nth_error_map2;
    rewrite ?nth_error_map,
      ?(nth_error_values_float _ _ _ Ch), ?(nth_error_values_float _ _ _ Cw);
    try reflexivity.
  apply series_le_nth; assumption.
Qed.

Lemma sample_mask :
  heat_mask sample_derived = inr [true; false; false; false].
Proof. vm_compute. reflexivity. Qed.

Lemma heat_mask_rowwise_witness :
  nth_error [true; false; false; false] 1 = Some false.
Proof.
  rewrite (heat_mask_rowwise sample_derived [true; false; false; false]
             (SInt [168; 156; 140; 169]) (SFloat [62; 85; 49; 82]%float)
             1%nat (NInt 90) (NInt 140) (NInt 156) (NFlt 85)
             sample_mask eq_refl eq_refl eq_refl eq_refl eq_refl eq_refl).
  vm_compute. reflexivity.
Defined.

Lemma nth_error_select_eq {A : Type} (l : list A) m k :
  nth_error (select l m) k =
    match kth_true m k with
    | Some i => nth_error l i
    | None => None
    end.
Proof.
  assert (N : forall i, nth_error (@nil A) i = None) by (intros [|i]; reflexivity).
  revert m k. induction l as [|a l IH]; intros [|b m] k.
  - apply N.
  - change (select [] (b :: m)) with (@nil A). rewrite N.
    destruct (kth_true (b :: m) k); [rewrite N|]; reflexivity.
  - destruct k; reflexivity.
  - simpl. destruct b.
    + destruct k as [|k]; simpl; [reflexivity|].
      rewrite IH. destruct (kth_true m k); reflexivity.
    + rewrite IH. destruct (kth_true m k); reflexivity.
Qed.

Lemma cell_boolean_index_eq df m name k :
  cell (boolean_index df m) name k =
    match kth_true m k with
    | Some i => cell df name i
    | None => None
    end.
Proof.
  unfold cell. rewrite loc_boolean_index.
  destruct (loc df name) as [[l|l]|]; simpl.
  - rewrite nth_error_select_eq. destruct (kth_true m k); reflexivity.
  - rewrite nth_error_select_eq. destruct (kth_true m k); reflexivity.
  - destruct (kth_true m k); reflexivity.
Qed.

Lemma kth_true_true m k i : kth_true m k = Some i -> nth_error m i = Some true.
Proof.
  revert k i. induction m as [|b m IH]; intros k i; simpl; [discriminate|].
  destruct b.
  - destruct k as [|k]; [intros [= <-]; reflexivity|].
    destruct (kth_true m k) as [j|] eqn:E; simpl; [|discriminate].
    intros [= <-]. simpl. eapply IH, E.
  - destruct (kth_true m k) as [j|] eqn:E; simpl; [|discriminate].
    intros [= <-]. simpl. eapply IH, E.
Qed.

Lemma kth_true_mono m k k' i i' :
  (k < k')%nat -> kth_true m k = Some i -> kth_true m k' = Some i' ->
  (i < i')%nat.
Proof.
  revert k k' i i'. induction m as [|b m IH]; intros k k' i i' Hlt; simpl;
    [discriminate|].
  destruct b.
  - destruct k' as [|k']; [lia|].
    destruct (kth_true m k') as [j'|] eqn:E'; simpl; [|discriminate].
    destruct k as [|k].
    + intros [= <-] [= <-]. lia.
    + destruct (kth_true m k) as [j|] eqn:E; simpl; [|discriminate].
      intros [= <-] [= <-].
      assert (j < j')%nat by (eapply (IH k k'); [lia|eassumption..]). lia.
  - destruct (kth_true m k) as [j|] eqn:E; simpl; [|discriminate].
    destruct (kth_true m k') as [j'|] eqn:E'; simpl; [|discriminate].
    intros [= <-] [= <-].
    assert (j < j')%nat by (eapply (IH k k'); [lia|eassumption..]). lia.
Qed.

Lemma kth_true_rank m i :
  nth_error m i = Some true -> kth_true m (rank m i) = Some i.
Proof.
  unfold rank, count_true. revert i.
  induction m as [|b m IH]; intros [|i]; simpl; try discriminate.
  - intros [= ->]. reflexivity.
  - intros H. destruct b; simpl; rewrite (IH i H); reflexivity.
Qed.

(** X8. The filtered table is made of exactly the rows whose mask is
    true, each one whole and in the original order: row [k] of the
    filtered table is the row of the unfiltered table at the position of
    the [k]-th true of the mask, and a row with mask true at position [i]
    is found at the number of mask-true rows before [i]. *)
Theorem heat_filter_subtable (df df_heat : DataFrame) :
  heat_filter df = inr df_heat ->
  exists m,
    heat_mask df = inr m /\
    (forall name k,
       cell df_heat name k =
         match kth_true m k with
         | Some i => cell df name i
         | None => None
         end) /\
    (forall k i, kth_true m k = Some i -> nth_error m i = Some true) /\
    (forall i, nth_error m i = Some true -> kth_true m (rank m i) = Some i) /\
    (forall k k' i i',
       (k < k')%nat -> kth_true m k = Some i -> kth_true m k' = Some i' ->
       (i < i')%nat).
Proof.
  intros Hf. apply heat_filter_inr in Hf as (m & Hm & ->).
  exists m. split; [exact Hm|].
  split; [intros; apply cell_boolean_index_eq|].
  split; [apply kth_true_true|].
  split; [apply kth_true_rank|apply kth_true_mono].
Qed.

Lemma sample_filtered : heat_filter sample_derived = inr sample_kept.
Proof. vm_compute. reflexivity. Qed.

Lemma heat_filter_subtable_witness :
  exists m,
    heat_mask sample_derived = inr m /\
    (forall name k,
       cell sample_kept name k =
         match kth_true m k with
         | Some i => cell sample_derived name i
         | None => None
         end) /\
    (forall k i, kth_true m k = Some i -> nth_error m i = Some true) /\
    (forall i, nth_error m i = Some true -> kth_true m (rank m i) = Some i) /\
    (forall k k' i i',
       (k < k')%nat -> kth_true m k = Some i -> kth_true m k' = Some i' ->
       (i < i')%nat).
Proof. exact (heat_filter_subtable sample_derived sample_kept sample_filtered). Defined.

Lemma select_length {A : Type} (l : list A) m :
  List.length l = List.length m -> List.length (select l m) = count_true m.
Proof.
  unfold count_true. revert m.
  induction l as [|a l IH]; intros [|b m]; simpl; try discriminate;
    [reflexivity|].
  intros [= H]. destruct b; simpl; rewrite (IH m H); reflexivity.
Qed.

Lemma count_true_le m : (count_true m <= List.length m)%nat.
Proof. unfold count_true. apply filter_length_le. Qed.

Lemma map2_length {A B C : Type} (f : A -> B -> C) a b n :
  List.length a = n -> List.length b = n -> List.length (map2 f a b) = n.
Proof.
  intros Ha Hb. unfold map2. rewrite length_map, length_combine. lia.
Qed.

Lemma series_le_length a b n :
  len a = n -> len b = n -> List.length (series_le a b) = n.
Proof.
  intros Ha Hb.
  destruct a, b; simpl in *; apply map2_length;
    rewrite ?length_map; assumption.
Qed.

Lemma heat_mask_length df n m :
  nrows df n -> heat_mask df = inr m -> List.length m = n.
Proof.
  intros Hn Hm. unfold heat_mask in Hm. exc_steps Hm. injection Hm as <-.
  pose proof (fun k s => nrows_loc df n k s Hn) as Hlen.
  apply getitem_inr in E, E0.
  apply ge_quantile_inr in E1 as (sh & Lh1 & ->).
  apply le_quantile_inr in E2 as (sh' & Lh2 & ->).
  apply ge_quantile_inr in E3 as (sw & Lw1 & ->).
  apply le_quantile_inr in E4 as (sw' & Lw2 & ->).
  unfold mask_and, ge_scalar, le_scalar.
  repeat apply map2_length;
    rewrite ?length_map, ?values_float_length; eauto.
  apply series_le_length; eauto.
Qed.

(** X9. Filtering keeps the shape of the table: the same columns in the
    same order, all with the same number of rows, which is the number of
    mask-true rows and at most the number of rows before. *)
Theorem heat_filter_shape (df df_heat : DataFrame) (n : nat) :
  heat_filter df = inr df_heat ->
  nrows df n ->
  map fst df_heat = map fst df /\
  exists m,
    heat_mask df = inr m /\ List.length m = n /\
    nrows df_heat (count_true m) /\ (count_true m <= n)%nat.
Proof.
  intros Hf Hn. apply heat_filter_inr in Hf as (m & Hm & ->).
  pose proof (heat_mask_length _ _ _ Hn Hm) as Hl.
  split.
  - unfold boolean_index. rewrite map_map. reflexivity.
  - exists m. split; [exact Hm|]. split; [exact Hl|]. split.
    + unfold nrows, boolean_index in *. apply Forall_map.
      eapply Forall_impl; [|exact Hn]. intros [k s] Hs. simpl in *.
      destruct s; simpl in *; apply select_length; congruence.
    + rewrite <- Hl. apply count_true_le.
Qed.

Lemma heat_filter_shape_witness :
  map fst sample_kept = map fst sample_derived /\
  exists m,
    heat_mask sample_derived = inr m /\ List.length m = 4%nat /\
    nrows sample_kept (count_true m) /\ (count_true m <= 4)%nat.
Proof.
  apply (heat_filter_shape sample_derived sample_kept 4 sample_filtered).
  unfold nrows, sample_derived. repeat constructor.
Defined.

(** X10. On a table whose columns are all numeric (int64 or float64, the
    tables a [DataFrame] stands for), the table work of the heat map
    raises only for a missing column: the [KeyError] names the first
    missing one of weight, height, cholesterol, gluc, ap_lo, ap_hi. On
    every such table that has the six columns, whatever its rows, the
    filtered table, the correlation matrix and the mask are produced. *)
Theorem heat_tables_missing_column (raw : DataFrame) :
  match first_missing raw
          ["weight"; "height"; "cholesterol"; "gluc"; "ap_lo"; "ap_hi"] with
  | Some k => heat_tables raw = inl (KeyError [k])
  | None =>
      exists df df_heat,
        heat_tables raw =
          inr (df, df_heat, corr df_heat, np_triu (corr df_heat))
  end.
Proof. exact (heat_tables_outcome raw). Qed.

(** *** Melting and counting, group by group *)

(** X11. After a successful derivation of a numeric table, the melt, and
    with it the count, raises in two cases only. A table that already has
    a column named [value] is refused with a [ValueError]. Otherwise, when
    some of cardio, smoke, alco, active are not columns, the [KeyError]
    lists every missing one, in that order. In all other cases the count
    table is produced. *)
Theorem cat_counts_missing_columns (raw df : DataFrame) :
  derive_cat raw = inr df ->
  if absent raw "value" then
    match filter (absent raw) ["cardio"; "smoke"; "alco"; "active"] with
    | [] => exists t, cat_counts df = inr t
    | (_ :: _) as missing => cat_counts df = inl (KeyError missing)
    end
  else exists msg, cat_counts df = inl (ValueError msg).
Proof.
  intros Hd.
  apply derive_cat_columns in Hd as (sw & sh & sc & sg & _ & _ & _ & _ & ->).
  unfold cat_counts, melt, value_vars, getitem, absent.
  rewrite !(loc_setitem_ne _ _ "value") by discriminate.
  destruct (loc raw "value"); [simpl; eauto|].
  cbn [filter].
  rewrite !loc_setitem_eq.
  rewrite !(loc_setitem_ne _ "gluc") by discriminate.
  rewrite !loc_setitem_eq.
  rewrite !(loc_setitem_ne _ "cholesterol") by discriminate.
  rewrite !loc_setitem_eq.
  rewrite !(loc_setitem_ne _ "overweight") by discriminate.
  destruct (loc raw "cardio"), (loc raw "smoke"), (loc raw "alco"),
    (loc raw "active"); simpl; eauto.
Qed.

Lemma cat_counts_missing_columns_witness :
  cat_counts
    [("weight", SInt [70]); ("height", SInt [170]);
     ("cholesterol", SInt [0]); ("gluc", SInt [0]); ("smoke", SInt [0]);
     ("alco", SInt [0]); ("active", SInt [1]); ("overweight", SInt [0])] =
  inl (KeyError ["cardio"]).
Proof.
  exact (cat_counts_missing_columns
           [("weight", SInt [70]); ("height", SInt [170]);
            ("cholesterol", SInt [1]); ("gluc", SInt [1]);
            ("smoke", SInt [0]); ("alco", SInt [0]); ("active", SInt [1])]
           _ ltac:(vm_compute; reflexivity)).
Defined.

Lemma nth_error_combine_both {A B : Type} (a : list A) (b : list B) i x y :
  nth_error a i = Some x -> nth_error b i = Some y ->
  nth_error (combine a b) i = Some (x, y).
Proof.
  revert b i. induction a as [|x0 a IH]; intros [|y0 b] [|i]; simpl;
    try discriminate.
  - intros [= ->] [= ->]. reflexivity.
  - apply IH.
Qed.

Lemma block_nth id v l i c x :
  nth_error id i = Some c -> nth_error l i = Some x ->
  nth_error (block id v l) i = Some (NInt c, v, NInt x).
Proof.
  intros Hc Hx. unfold block.
  apply nth_error_combine_both; [apply nth_error_combine_both|].
  - rewrite nth_error_map, Hc. reflexivity.
  - apply nth_error_repeat. apply nth_error_Some. congruence.
  - rewrite nth_error_map, Hx. reflexivity.
Qed.

Lemma nth_error_flat_map_blocks {A B : Type} (f : A -> list B) l n j i p :
  Forall (fun q => List.length (f q) = n) l ->
  nth_error l j = Some p -> (i < n)%nat ->
  nth_error (flat_map f l) (j * n + i) = nth_error (f p) i.
Proof.
  intros Hl. revert j. induction Hl as [|q l Hq _ IH]; intros [|j]; simpl;
    try discriminate.
  - intros [= ->] Hi. apply nth_error_app1. lia.
  - intros Hp Hi. rewrite nth_error_app2 by lia.
    rewrite <- (IH j Hp Hi). f_equal. lia.
Qed.

Lemma blocks_length id (cols : list (string * list Z)) n :
  List.length id = n ->
  Forall (fun p => List.length (snd p) = n) cols ->
  Forall (fun p => List.length (block id (fst p) (snd p)) = n) cols.
Proof.
  intros Hid H. eapply Forall_impl; [|exact H].
  intros [v l] Hl. simpl in *. rewrite block_length; congruence.
Qed.

(** X12. The layout of the long table of an integer-coded dataset of [n]
    rows: it has [6 * n] rows, and row [j * n + i] pairs the cardio value
    of source row [i] with the [j]-th melted variable and that row's
    value in it. No row is lost, repeated or moved to another variable. *)
Theorem melt_layout
  (raw df : DataFrame) (m : Melted) (n j i : nat) (v : string) (c x : num) :
  nrows raw n ->
  int_coded raw = true ->
  derive_cat raw = inr df ->
  melt df "cardio" value_vars = inr m ->
  List.length (melted_keys m) = (6 * n)%nat /\
  (nth_error value_vars j = Some v ->
   cell df "cardio" i = Some c ->
   cell df v i = Some x ->
   nth_error (melted_keys m) (j * n + i) = Some (c, v, x)).
Proof.
  intros Hn Hi Hd Hm.
  destruct (melt_int_cols df n (melt_inr_value _ _ _ _ Hm)
              (derived_int_cols raw df n Hn Hi Hd))
    as (m' & id & cols & Hm' & Hk & Hf & Lid & Hid & Hcols).
  rewrite Hm in Hm'. injection Hm' as <-. rewrite Hk.
  assert (Hlen : Forall (fun p => List.length (block id (fst p) (snd p)) = n)
                   cols).
  { apply blocks_length; [exact Hid|].
    eapply Forall_impl; [|exact Hcols]. intros p [_ H]. exact H. }
  split.
  - rewrite length_flat_map.
    assert (Hc : List.length cols = 6%nat)
      by (rewrite <- (length_map fst), Hf; reflexivity).
    clear - Hlen Hc. revert Hc. generalize 6%nat as q.
    induction Hlen as [|p cols Hp _ IH]; intros [|q]; simpl;
      try discriminate; [reflexivity|].
    intros [= Hq]. rewrite Hp, (IH q Hq). lia.
  - intros Hv Hc Hx.
    rewrite <- Hf, nth_error_map in Hv.
    destruct (nth_error cols j) as [[v' l]|] eqn:Ej; [|discriminate].
    injection Hv as ->.
    rewrite Forall_forall in Hcols.
    destruct (Hcols _ (nth_error_In _ _ Ej)) as [Lv Hl]. simpl in Lv, Hl.
    unfold cell in Hc, Hx. rewrite Lid in Hc. rewrite Lv in Hx.
    simpl in Hc, Hx.
    destruct (nth_error id i) as [zc|] eqn:Ec; [|discriminate].
    destruct (nth_error l i) as [zx|] eqn:Ex; [|discriminate].
    injection Hc as <-. injection Hx as <-.
    assert (Hi' : (i < n)%nat)
      by (rewrite <- Hid; apply nth_error_Some; congruence).
    rewrite (nth_error_flat_map_blocks _ _ n j i (v, l) Hlen Ej Hi').
    apply block_nth; assumption.
Qed.

Lemma sample_melted :
  melt sample_derived "cardio" value_vars =
    inr {| m_id := SInt [0; 1; 1; 1; 0; 1; 1; 1; 0; 1; 1; 1;
                         0; 1; 1; 1; 0; 1; 1; 1; 0; 1; 1; 1];
           m_variable :=
             ["cholesterol"; "cholesterol"; "cholesterol"; "cholesterol";
              "gluc"; "gluc"; "gluc"; "gluc";
              "smoke"; "smoke"; "smoke"; "smoke";
              "alco"; "alco"; "alco"; "alco";
              "active"; "active"; "active"; "active";
              "overweight"; "overweight"; "overweight"; "overweight"];
           m_value := SInt [0; 1; 1; 0; 0; 0; 1; 0; 0; 0; 1; 1;
                            0; 1; 0; 1; 1; 1; 0; 1; 0; 1; 1; 1] |}.
Proof. vm_compute. reflexivity. Qed.

Lemma sample_derive : derive_cat sample = inr sample_derived.
Proof. vm_compute. reflexivity. Qed.

Lemma melt_layout_witness :
  exists m,
    List.length (melted_keys m) = 24%nat /\
    nth_error (melted_keys m) (2 * 4 + 3) = Some (NInt 1, "smoke", NInt 1).
Proof.
  eexists.
  destruct (melt_layout sample sample_derived _ 4 2 3 "smoke" (NInt 1) (NInt 1)
              sample_nrows eq_refl sample_derive sample_melted) as [Hl Hr].
  split; [exact Hl|]. apply Hr; reflexivity.
Defined.

Lemma string_ltb_trans a b c :
  String.ltb a b = true -> String.ltb b c = true -> String.ltb a c = true.
Proof.
  unfold String.ltb. intros Hab Hbc.
  destruct (String.compare a b) eqn:Eab; try discriminate.
  destruct (String.compare b c) eqn:Ebc; try discriminate.
  apply String_as_OT.cmp_lt in Eab, Ebc.
  pose proof (String_as_OT.lt_trans _ _ _ Eab Ebc) as Hac.
  apply String_as_OT.cmp_lt in Hac. unfold String_as_OT.cmp in Hac.
  rewrite Hac. reflexivity.
Qed.

Lemma string_ltb_irrefl a : String.ltb a a = false.
Proof.
  unfold String.ltb.
  pose proof (proj2 (String_as_OT.cmp_eq a a) eq_refl) as H.
  unfold String_as_OT.cmp in H. rewrite H. reflexivity.
Qed.

Lemma string_ltb_total a b :
  String.ltb a b = false -> String.eqb a b = false -> String.ltb b a = true.
Proof.
  unfold String.ltb. intros Hab Hne. apply String.eqb_neq in Hne.
  rewrite String.compare_antisym.
  destruct (String.compare a b) eqn:E; try discriminate; [|reflexivity].
  apply String.compare_eq_iff in E. contradiction.
Qed.

Lemma key_lt_trans : Transitive key_lt.
Proof.
  intros [[[c1|] v1] [x1|]] [[[c2|] v2] [x2|]] [[[c3|] v3] [x3|]];
    simpl; try tauto.
  intros [H1|[-> [H1|[-> H1]]]] [H2|[-> [H2|[-> H2]]]]; auto; try lia.
  - right. split; [reflexivity|]. left. eapply string_ltb_trans; eassumption.
  - right. split; [reflexivity|]. right. split; [reflexivity|lia].
Qed.

Lemma key_leb_total a b :
  int_key a -> int_key b -> key_leb a b = false -> key_leb b a = true.
Proof.
  intros (c1 & v1 & x1 & ->) (c2 & v2 & x2 & ->). simpl.
  destruct (Z.ltb_spec c1 c2); [discriminate|].
  destruct (Z.eqb_spec c1 c2) as [->|Hc].
  - rewrite Z.ltb_irrefl, Z.eqb_refl.
    destruct (String.ltb v1 v2) eqn:L12; [discriminate|].
    destruct (String.eqb v1 v2) eqn:E12.
    + apply String.eqb_eq in E12 as ->.
      rewrite string_ltb_irrefl, String.eqb_refl. intros Hx.
      apply orb_false_iff in Hx as [Hl He].
      apply Z.ltb_ge in Hl. apply Z.eqb_neq in He.
      apply orb_true_iff. left. apply Z.ltb_lt. lia.
    + intros _. rewrite (string_ltb_total _ _ L12 E12). reflexivity.
  - intros _. destruct (Z.ltb_spec c2 c1); [reflexivity|lia].
Qed.

Lemma key_leb_lt a b :
  int_key a -> int_key b -> key_leb a b = true -> a <> b -> key_lt a b.
Proof.
  intros (c1 & v1 & x1 & ->) (c2 & v2 & x2 & ->). simpl.
  destruct (Z.ltb_spec c1 c2); [auto|].
  destruct (Z.eqb_spec c1 c2) as [->|Hc]; [|discriminate].
  destruct (String.ltb v1 v2) eqn:L12; [auto|].
  destruct (String.eqb_spec v1 v2) as [->|Hv]; [|discriminate].
  intros Hx Hne. apply orb_true_iff in Hx as [Hx|Hx].
  - apply Z.ltb_lt in Hx. auto.
  - apply Z.eqb_eq in Hx as ->. contradiction.
Qed.

Lemma insert_key_sorted k l :
  Forall int_key (k :: l) ->
  Sorted (fun a b => key_leb a b = true) l ->
  Sorted (fun a b => key_leb a b = true) (insert_key k l).
Proof.
  intros Hi Hs. induction Hs as [|a l Hs IH Hd]; simpl.
  - repeat constructor.
  - inversion Hi as [|? ? Hk Hal]; subst.
    inversion Hal as [|? ? Ha Hl]; subst.
    destruct (key_leb k a) eqn:E.
    + constructor; [constructor; assumption|constructor; exact E].
    + constructor; [apply IH; constructor; assumption|].
      destruct l as [|b l]; simpl.
      * constructor. apply key_leb_total; assumption.
      * destruct (key_leb k b); constructor.
        -- apply key_leb_total; assumption.
        -- inversion Hd; assumption.
Qed.

Lemma sort_keys_sorted l :
  Forall int_key l -> Sorted (fun a b => key_leb a b = true) (sort_keys l).
Proof.
  induction 1 as [|k l Hk Hl IH]; simpl; [constructor|].
  apply insert_key_sorted; [|exact IH].
  constructor; [exact Hk|].
  eapply Permutation_Forall; [symmetry; apply sort_keys_perm|exact Hl].
Qed.

Lemma unique_int_key l : Forall int_key l -> Forall int_key (unique l).
Proof.
  intros H. apply Forall_forall. intros k Hk.
  rewrite Forall_forall in H. apply H, unique_incl, Hk.
Qed.

Lemma unique_NoDup l : Forall int_key l -> NoDup (unique l).
Proof.
  induction 1 as [|k l Hk Hl IH]; simpl; [constructor|].
  destruct (existsb (key_eqb k) l) eqn:E; [exact IH|].
  constructor; [|exact IH]. intros Hin. apply unique_incl in Hin.
  rewrite Forall_forall in Hl.
  assert (Ht : existsb (key_eqb k) l = true).
  { apply existsb_exists. exists k. split; [exact Hin|].
    apply key_eqb_eq; auto. }
  congruence.
Qed.

Lemma sorted_strict l :
  Forall int_key l -> NoDup l ->
  Sorted (fun a b => key_leb a b = true) l -> StronglySorted key_lt l.
Proof.
  intros Hi Hn Hs. apply Sorted_StronglySorted; [exact key_lt_trans|].
  induction Hs as [|a l Hs IH Hd]; [constructor|].
  inversion Hi as [|? ? Ha Hl]; subst. inversion Hn as [|? ? Hna Hnl]; subst.
  constructor; [apply IH; assumption|].
  destruct Hd as [|b l Hab]; constructor.
  inversion Hl; subst. apply key_leb_lt; try assumption.
  intros ->. apply Hna. left. reflexivity.
Qed.

(** X13. The count table of an integer-coded dataset lists its groups in
    strictly increasing order of (cardio, variable, value), variables in
    alphabetical order: each group is listed before every greater one, and
    no group is listed twice. *)
Theorem counts_strictly_sorted
  (raw df : DataFrame) (t : list (key * Z)) (n : nat) :
  nrows raw n ->
  int_coded raw = true ->
  derive_cat raw = inr df ->
  cat_counts df = inr t ->
  StronglySorted key_lt (map fst t) /\ NoDup (map fst t).
Proof.
  intros Hn Hi Hd Hc.
  destruct (melt_int_cols df n (cat_counts_inr_value _ _ Hc)
              (derived_int_cols raw df n Hn Hi Hd))
    as (m & id & cols & Hm & Hk & _).
  unfold cat_counts in Hc. rewrite Hm in Hc. injection Hc as <-.
  assert (Hint : Forall int_key (melted_keys m))
    by (rewrite Hk; apply blocks_int_key).
  rewrite (groupby_count_int m Hint), map_map. simpl. rewrite map_id.
  assert (Hu : Forall int_key (sort_keys (unique (melted_keys m)))).
  { eapply Permutation_Forall; [symmetry; apply sort_keys_perm|].
    apply unique_int_key, Hint. }
  assert (Hnd : NoDup (sort_keys (unique (melted_keys m)))).
  { eapply Permutation_NoDup; [symmetry; apply sort_keys_perm|].
    apply unique_NoDup, Hint. }
  split; [|exact Hnd].
  apply sorted_strict; try assumption.
  apply sort_keys_sorted, unique_int_key, Hint.
Qed.

Lemma sample_counted : cat_counts sample_derived = inr sample_counts.
Proof. vm_compute. reflexivity. Qed.

Lemma counts_strictly_sorted_witness :
  StronglySorted key_lt (map fst sample_counts) /\
  NoDup (map fst sample_counts).
Proof.
  exact (counts_strictly_sorted sample sample_derived sample_counts 4
           sample_nrows eq_refl sample_derive sample_counted).
Defined.

Lemma group_block_same id v l c x :
  List.length (filter (key_eqb (NInt c, v, NInt x)) (block id v l)) =
  count_rows id l c x.
Proof.
  unfold count_rows, block. revert l.
  induction id as [|a id IH]; intros [|b l]; try reflexivity.
  simpl. rewrite String.eqb_refl, andb_true_r.
  destruct ((c =? a) && (x =? b)); simpl; rewrite <- IH; reflexivity.
Qed.

Lemma group_block_other id v v' l c x :
  v <> v' -> filter (key_eqb (NInt c, v, NInt x)) (block id v' l) = [].
Proof.
  intros Hne.
  assert (F : forall ks,
             Forall (fun k => key_eqb (NInt c, v, NInt x) k = false) ks ->
             filter (key_eqb (NInt c, v, NInt x)) ks = []).
  { induction 1 as [|k ks Hk _ IH]; cbn [filter]; [reflexivity|].
    rewrite Hk. exact IH. }
  apply F, Forall_forall. intros k H.
  apply block_rows in H as (_ & c' & x' & -> & _). simpl.
  rewrite (proj2 (String.eqb_neq v v') Hne), andb_false_r. reflexivity.
Qed.

Lemma unique_complete l k :
  Forall int_key l -> In k l -> In k (unique l).
Proof.
  induction 1 as [|a l Ha Hl IH]; simpl; [tauto|].
  intros Hin.
  destruct (existsb (key_eqb a) l) eqn:E.
  - destruct Hin as [<-|Hin]; [|auto].
    apply existsb_exists in E as (y & Hy & Hay).
    rewrite Forall_forall in Hl.
    apply key_eqb_eq in Hay; [subst y; auto|assumption|auto].
  - destruct Hin as [<-|Hin]; [left; reflexivity|right; auto].
Qed.

(** The size of a group is the number of matching rows of its column. *)
Lemma group_size_blocks id (cols : list (string * list Z)) v vals c x :
  map fst cols = value_vars ->
  In (v, vals) cols ->
  group_size (flat_map (fun p => block id (fst p) (snd p)) cols)
    (NInt c, v, NInt x) = count_rows id vals c x.
Proof.
  intros Hf Hin. unfold group_size.
  destruct cols as [|[v1 l1] [|[v2 l2] [|[v3 l3] [|[v4 l4] [|[v5 l5]
    [|[v6 l6] [|? ?]]]]]]]; try discriminate Hf.
  unfold value_vars in Hf. injection Hf as -> -> -> -> -> ->.
  cbn [flat_map fst snd]. rewrite !filter_app, !length_app. simpl in Hin.
  repeat (destruct Hin as [[= <- <-]|Hin];
          [ rewrite group_block_same, !group_block_other by discriminate;
            simpl; lia | ]).
  contradiction.
Qed.

(** X14. The totals are exact and complete. For an integer-coded dataset,
    the total listed for a group (cardio c, variable v, value x) is the
    number of source rows with cardio c and value x in column v, and
    every combination found in at least one source row is listed. *)
Theorem counts_exact
  (raw df : DataFrame) (t : list (key * Z)) (n : nat)
  (v : string) (ids vals : list Z) (c x : Z) :
  nrows raw n ->
  int_coded raw = true ->
  derive_cat raw = inr df ->
  cat_counts df = inr t ->
  In v value_vars ->
  loc df "cardio" = Some (SInt ids) ->
  loc df v = Some (SInt vals) ->
  (forall total,
     In (NInt c, v, NInt x, total) t ->
     total = Z.of_nat (count_rows ids vals c x)) /\
  ((0 < count_rows ids vals c x)%nat ->
   In (NInt c, v, NInt x, Z.of_nat (count_rows ids vals c x)) t).
Proof.
  intros Hn Hi Hd Hc Hv Lid Lv.
  destruct (melt_int_cols df n (cat_counts_inr_value _ _ Hc)
              (derived_int_cols raw df n Hn Hi Hd))
    as (m & id & cols & Hm & Hk & Hf & Lid' & _ & Hcols).
  rewrite Lid in Lid'. injection Lid' as <-.
  assert (Hin : In (v, vals) cols).
  { rewrite <- Hf in Hv. apply in_map_iff in Hv as ([v' l] & Ev & Hp).
    simpl in Ev. subst v'. rewrite Forall_forall in Hcols.
    destruct (Hcols _ Hp) as [Lv' _]. simpl in Lv'.
    rewrite Lv in Lv'. injection Lv' as <-. exact Hp. }
  unfold cat_counts in Hc. rewrite Hm in Hc. injection Hc as <-.
  assert (Hint : Forall int_key (melted_keys m))
    by (rewrite Hk; apply blocks_int_key).
  rewrite (groupby_count_int m Hint).
  assert (Hsize : group_size (melted_keys m) (NInt c, v, NInt x) =
                  count_rows ids vals c x)
    by (rewrite Hk; apply group_size_blocks; assumption).
  split.
  - intros total Ht. apply in_map_iff in Ht as (k & [= -> <-] & _).
    rewrite Hsize. reflexivity.
  - intros Hpos. rewrite <- Hsize. rewrite <- Hsize in Hpos.
    apply (in_map (fun k => (k, Z.of_nat (group_size (melted_keys m) k)))).
    apply (Permutation_in _ (Permutation_sym (sort_keys_perm _))).
    apply unique_complete; [exact Hint|].
    unfold group_size in Hpos.
    destruct (filter (key_eqb (NInt c, v, NInt x)) (melted_keys m))
      as [|y ys] eqn:E; [simpl in Hpos; lia|].
    assert (Hy : In y (filter (key_eqb (NInt c, v, NInt x)) (melted_keys m)))
      by (rewrite E; left; reflexivity).
    apply filter_In in Hy as [Hy Hey].
    rewrite Forall_forall in Hint.
    apply key_eqb_eq in Hey; [subst y; exact Hy|exists c, v, x; reflexivity|auto].
Qed.

Lemma counts_exact_witness :
  (forall total,
     In (NInt 1, "gluc", NInt 0, total) sample_counts -> total = 2) /\
  ((0 < 2)%nat -> In (NInt 1, "gluc", NInt 0, 2) sample_counts).
Proof.
  apply (counts_exact sample sample_derived sample_counts 4 "gluc"
           [0; 1; 1; 1] [0; 0; 1; 0] 1 0
           sample_nrows eq_refl sample_derive sample_counted).
  - simpl. auto.
  - reflexivity.
  - reflexivity.
Defined.

(** *** Empty tables *)

Lemma melt_variable_empty df ks :
  nrows df 0 ->
  flat_map (fun k => match loc df k with
                     | Some s => repeat k (len s)
                     | None => []
                     end) ks = [].
Proof.
  intros Hn. induction ks as [|k ks IH]; simpl; [reflexivity|].
  rewrite IH, app_nil_r.
  destruct (loc df k) as [s|] eqn:E; [|reflexivity].
  rewrite (nrows_loc _ _ _ _ Hn E). reflexivity.
Qed.

Lemma melt_empty df id_var vars m :
  nrows df 0 -> melt df id_var vars = inr m -> melted_keys m = [].
Proof.
  intros Hn Hm. apply melt_inr in Hm as (id & _ & _ & ->).
  unfold melted_keys. cbn [m_variable m_id m_value].
  rewrite (melt_variable_empty df vars Hn), combine_nil. reflexivity.
Qed.

(** X15. A dataset without rows is not an error for the table work of the
    categorical plot: when its columns are there, the count table is
    produced and it is empty. *)
Theorem cat_counts_empty (raw df : DataFrame) (t : list (key * Z)) :
  nrows raw 0 ->
  derive_cat raw = inr df ->
  cat_counts df = inr t ->
  t = [].
Proof.
  intros Hn Hd Hc. pose proof (derive_cat_nrows _ _ _ Hd Hn) as Hn'.
  unfold cat_counts in Hc.
  destruct (melt df "cardio" value_vars) as [e|m] eqn:Hm; [discriminate|].
  unfold bind, ret in Hc. injection Hc as <-.
  unfold groupby_count. rewrite (melt_empty _ _ _ _ Hn' Hm). reflexivity.
Qed.

Lemma cat_counts_empty_witness : @nil (key * Z) = [].
Proof.
  apply (cat_counts_empty
           [("height", SInt []); ("weight", SFloat []);
            ("cholesterol", SInt []); ("gluc", SInt []); ("smoke", SInt []);
            ("alco", SInt []); ("active", SInt []); ("cardio", SInt [])]
           [("height", SInt []); ("weight", SFloat []);
            ("cholesterol", SInt []); ("gluc", SInt []); ("smoke", SInt []);
            ("alco", SInt []); ("active", SInt []); ("cardio", SInt []);
            ("overweight", SInt [])]).
  - unfold nrows. repeat constructor.
  - vm_compute. reflexivity.
  - vm_compute. reflexivity.
Defined.

Lemma columns_empty df i :
  nrows df 0 -> nth i (map (fun c => values_float (snd c)) df) [] = [].
Proof.
  unfold nrows. intros Hn. revert i.
  induction Hn as [|[k s] r Hs _ IH]; intros [|i]; simpl; try reflexivity.
  - simpl in Hs. apply length_zero_iff_nil.
    rewrite values_float_length. exact Hs.
  - apply IH.
Qed.

(** X16. When no row is left, the correlation matrix is still produced:
    every entry of the matrix of a table without rows is NaN, and the heat
    map hides every cell, below the diagonal as well as above, because
    seaborn hides the cells whose value is missing. *)
Theorem corr_of_empty_table (df : DataFrame) (i j : nat) :
  nrows df 0 ->
  (i < List.length df)%nat ->
  (j < List.length df)%nat ->
  entry (corr df) i j = Some nan /\
  masked (corr df) (np_triu (corr df)) i j = true.
Proof.
  intros Hn Hi Hj.
  assert (He : entry (corr df) i j = Some nan).
  { rewrite entry_corr.
    rewrite (proj2 (Nat.ltb_lt _ _) Hi), (proj2 (Nat.ltb_lt _ _) Hj). simpl.
    unfold corr_entry. rewrite !columns_empty by exact Hn. reflexivity. }
  split; [exact He|].
  rewrite (proj2 (np_triu_entry _ _ _ _ He)).
  destruct (i <=? j)%nat; reflexivity.
Qed.

Lemma corr_of_empty_table_witness :
  entry (corr no_rows) 3 1 = Some nan /\
  masked (corr no_rows) (np_triu (corr no_rows)) 3 1 = true.
Proof.
  apply corr_of_empty_table;
    [unfold nrows, no_rows; repeat constructor|simpl; lia..].
Defined.

(** *** The mask, cell by cell *)

(** X17. The mask of the heat map has the shape of the correlation
    matrix. Below the diagonal its entries are 0; on and above the
    diagonal an entry is the correlation itself. The heat map hides a cell
    exactly when its correlation is NaN, wherever the cell lies, or when
    the cell lies on or above the diagonal and its correlation is not
    zero. *)
Theorem mask_cell (df_heat : DataFrame) (i j : nat) :
  (i < List.length df_heat)%nat ->
  (j < List.length df_heat)%nat ->
  exists x,
    entry (corr df_heat) i j = Some x /\
    entry (np_triu (corr df_heat)) i j =
      Some (if (i <=? j)%nat then x else 0%float) /\
    masked (corr df_heat) (np_triu (corr df_heat)) i j =
      (i <=? j)%nat && negb (x =? 0)%float || is_nan x.
Proof.
  intros Hi Hj.
  assert (He : exists x, entry (corr df_heat) i j = Some x).
  { rewrite entry_corr.
    rewrite (proj2 (Nat.ltb_lt _ _) Hi), (proj2 (Nat.ltb_lt _ _) Hj).
    simpl. eauto. }
  destruct He as [x He]. exists x. split; [exact He|].
  apply np_triu_entry, He.
Qed.

Lemma mask_cell_witness :
  exists x,
    entry (corr paired_derived) 10 9 = Some x /\
    entry (np_triu (corr paired_derived)) 10 9 =
      Some (if (10 <=? 9)%nat then x else 0%float) /\
    masked (corr paired_derived) (np_triu (corr paired_derived)) 10 9 =
      (10 <=? 9)%nat && negb (x =? 0)%float || is_nan x.
Proof. apply mask_cell; simpl; lia. Defined.

(** *** The files the two functions touch *)

Section PipelineFiles.

Variables Figure FacetGrid : Type.
Variable parse_csv : string -> Exc DataFrame.
Variable sns_catplot : catplot_args -> list (key * Z) -> Exc FacetGrid.
Variable grid_fig : FacetGrid -> Exc Figure.
Variable plt_subplots : Z * Z -> Exc Figure.
Variable sns_heatmap : heatmap_args -> Matrix -> Matrix -> Figure -> Exc Figure.
Variable print_png : Figure -> Exc string.

Local Abbreviation cat_plot :=
  (draw_cat_plot Figure FacetGrid parse_csv sns_catplot grid_fig print_png).
Local Abbreviation heat_map :=
  (draw_heat_map Figure parse_csv plt_subplots sns_heatmap print_png).

Lemma cat_plot_outcome fs0 :
  exists o,
    (forall fs, fs dataset = fs0 dataset ->
       cat_plot fs = run_on "catplot.png" o fs) /\
    (forall fig data, o = inr (fig, data) -> print_png fig = inr data).
Proof.
  unfold draw_cat_plot, io_bind, lift, io_ret, read_csv, savefig.
  destruct (fs0 dataset) as [text|].
  2:{ exists (inl (FileNotFoundError dataset)). split; [|discriminate].
      intros fs ->. reflexivity. }
  destruct (parse_csv text) as [e|df] eqn:Ep.
  { exists (inl e). split; [|discriminate]. intros fs ->. rewrite Ep.
    reflexivity. }
  destruct (derive_cat df) as [e|df1] eqn:Ed.
  { exists (inl e). split; [|discriminate]. intros fs ->. rewrite Ep, Ed.
    reflexivity. }
  destruct (cat_counts df1) as [e|t] eqn:Ec.
  { exists (inl e). split; [|discriminate]. intros fs ->. rewrite Ep, Ed, Ec.
    reflexivity. }
  destruct (sns_catplot cat_args t) as [e|g] eqn:Eg.
  { exists (inl e). split; [|discriminate]. intros fs ->.
    rewrite Ep, Ed, Ec, Eg. reflexivity. }
  destruct (grid_fig g) as [e|fig] eqn:Ef.
  { exists (inl e). split; [|discriminate]. intros fs ->.
    rewrite Ep, Ed, Ec, Eg, Ef. reflexivity. }
  destruct (print_png fig) as [e|data] eqn:Es.
  { exists (inl e). split; [|discriminate]. intros fs ->.
    rewrite Ep, Ed, Ec, Eg, Ef, Es. reflexivity. }
  exists (inr (fig, data)). split.
  - intros fs ->. rewrite Ep, Ed, Ec, Eg, Ef, Es. reflexivity.
  - intros ? ? [= <- <-]. exact Es.
Qed.

Lemma heat_map_outcome fs0 :
  exists o,
    (forall fs, fs dataset = fs0 dataset ->
       heat_map fs = run_on "heatmap.png" o fs) /\
    (forall fig data, o = inr (fig, data) -> print_png fig = inr data).
Proof.
  unfold draw_heat_map, io_bind, lift, io_ret, read_csv, savefig.
  destruct (fs0 dataset) as [text|].
  2:{ exists (inl (FileNotFoundError dataset)). split; [|discriminate].
      intros fs ->. reflexivity. }
  destruct (parse_csv text) as [e|df] eqn:Ep.
  { exists (inl e). split; [|discriminate]. intros fs ->. rewrite Ep.
    reflexivity. }
  destruct (derive_heat df) as [e|df1] eqn:Ed.
  { exists (inl e). split; [|discriminate]. intros fs ->. rewrite Ep, Ed.
    reflexivity. }
  destruct (heat_filter df1) as [e|df2] eqn:Ec.
  { exists (inl e). split; [|discriminate]. intros fs ->. rewrite Ep, Ed, Ec.
    reflexivity. }
  destruct (plt_subplots (10, 8)) as [e|g] eqn:Eg.
  { exists (inl e). split; [|discriminate]. intros fs ->.
    rewrite ?Ep, ?Ed, ?Ec. reflexivity. }
  destruct (sns_heatmap heat_args (corr df2) (np_triu (corr df2)) g)
    as [e|fig] eqn:Ef.
  { exists (inl e). split; [|discriminate]. intros fs ->.
    rewrite ?Ep, ?Ed, ?Ec, ?Eg, ?Ef. reflexivity. }
  destruct (print_png fig) as [e|data] eqn:Es.
  { exists (inl e). split; [|discriminate]. intros fs ->.
    rewrite ?Ep, ?Ed, ?Ec, ?Eg, ?Ef, ?Es. reflexivity. }
  exists (inr (fig, data)). split.
  - intros fs ->. rewrite ?Ep, ?Ed, ?Ec, ?Eg, ?Ef, ?Es. reflexivity.
  - intros ? ? [= <- <-]. exact Es.
Qed.

Lemma run_on_frame path (o : Exc (Figure * string)) fs p :
  p <> path -> snd (run_on path o fs) p = fs p.
Proof.
  intros Hp. destruct o as [e|[fig data]]; simpl; [reflexivity|].
  unfold write. rewrite (proj2 (String.eqb_neq p path) Hp). reflexivity.
Qed.

(** X18. Each function touches one file only. Whatever happens in a run,
    every path other than [catplot.png] (for [draw_cat_plot]) or
    [heatmap.png] (for [draw_heat_map]) holds what it held before, the
    dataset included; and when a run returns a figure, its image file
    holds the PNG encoding of that very figure. *)
Theorem only_the_image_is_written (fs : Files) :
  (forall p, p <> "catplot.png" -> snd (cat_plot fs) p = fs p) /\
  (forall p, p <> "heatmap.png" -> snd (heat_map fs) p = fs p) /\
  (forall fig, fst (cat_plot fs) = inr fig ->
     exists data, print_png fig = inr data /\
                  snd (cat_plot fs) "catplot.png" = Some data) /\
  (forall fig, fst (heat_map fs) = inr fig ->
     exists data, print_png fig = inr data /\
                  snd (heat_map fs) "heatmap.png" = Some data).
Proof.
  destruct (cat_plot_outcome fs) as (oc & Hc & Hpc).
  destruct (heat_map_outcome fs) as (oh & Hh & Hph).
  rewrite (Hc fs eq_refl), (Hh fs eq_refl).
  split; [intros; apply run_on_frame; assumption|].
  split; [intros; apply run_on_frame; assumption|].
  split.
  - destruct oc as [e|[fig data]]; simpl; [discriminate|].
    intros ? [= <-]. exists data. split; [eapply Hpc; reflexivity|].
    unfold write. rewrite String.eqb_refl. reflexivity.
  - destruct oh as [e|[fig data]]; simpl; [discriminate|].
    intros ? [= <-]. exists data. split; [eapply Hph; reflexivity|].
    unfold write. rewrite String.eqb_refl. reflexivity.
Qed.

Lemma run_on_dataset path (o : Exc (Figure * string)) fs :
  path <> dataset -> snd (run_on path o fs) dataset = fs dataset.
Proof. intros H. apply run_on_frame. congruence. Qed.

(** X19. The two functions do not disturb each other. Running one of them
    first changes neither the figure nor the exception of the other, and
    both orders leave the same files. *)
Theorem runs_are_independent (fs : Files) :
  fst (heat_map (snd (cat_plot fs))) = fst (heat_map fs) /\
  fst (cat_plot (snd (heat_map fs))) = fst (cat_plot fs) /\
  forall p,
    snd (heat_map (snd (cat_plot fs))) p =
    snd (cat_plot (snd (heat_map fs))) p.
Proof.
  destruct (cat_plot_outcome fs) as (oc & Hc & _).
  destruct (heat_map_outcome fs) as (oh & Hh & _).
  assert (Dc : snd (cat_plot fs) dataset = fs dataset)
    by (rewrite (Hc fs eq_refl); apply run_on_dataset; discriminate).
  assert (Dh : snd (heat_map fs) dataset = fs dataset)
    by (rewrite (Hh fs eq_refl); apply run_on_dataset; discriminate).
  rewrite (Hh _ Dc), (Hc _ Dh), (Hc fs eq_refl), (Hh fs eq_refl).
  destruct oc as [ec|[figc dc]], oh as [eh|[figh dh]]; simpl;
    repeat split; try reflexivity.
  intros p. unfold write.
  destruct (String.eqb_spec p "heatmap.png") as [->|Hp]; reflexivity.
Qed.

End PipelineFiles.

Lemma only_the_image_is_written_witness :
  snd (draw_cat_plot string string parse_sample draw_bars (@inr exn string)
         (@inr exn string) disk) dataset = disk dataset /\
  exists data,
    snd (draw_cat_plot string string parse_sample draw_bars (@inr exn string)
           (@inr exn string) disk) "catplot.png" = Some data.
Proof.
  destruct (only_the_image_is_written string string parse_sample draw_bars
              (@inr exn string) draw_axes draw_heat (@inr exn string) disk)
    as (Hf & _ & Hs & _).
  split; [apply Hf; discriminate|].
  destruct (Hs "bar" ltac:(vm_compute; reflexivity)) as (data & _ & Hd).
  exists data. exact Hd.
Defined.
